(** * StockfishEmbedded: the sync-loop / async-I/O bridge

    A shallow embedding of the C++ bridge classes of [Sources/SFEngine]:

    - [ThreadSafeQueue.hpp]  : the blocking command queue,
    - [CommandStream.hpp]    : the input adapter, a [std::streambuf] fed by the queue,
    - [LineBufferStream.hpp] : the output adapter, a [std::streambuf] emitting lines,
    - [EmbeddedUCI.cpp]      : the scoped rebinding of [std::cin] / [std::cout]
                               and the entry point [RunStockfishUCI].

    Every member function is modelled by explicit state passing.  A member
    function that runs under the queue's mutex is one atomic step on the
    queue state, so an execution with several threads is a sequence of such
    steps; a [pop] whose wait condition is false does not return. *)

From Stdlib Require Import ZArith Ascii Bool Lia.
From stdpp Require Import base option list strings gmap.

Local Open Scope Z_scope.

(** ** Characters and [std::char_traits<char>] *)

(** A [char] is one byte, a [std::string] a sequence of them. *)
Abbreviation char_type := ascii (only parsing).
Abbreviation int_type := Z (only parsing).
Abbreviation cstring := (list ascii) (only parsing).

Definition NUL : char_type := "000"%char.
Definition LF : char_type := "010"%char.   (* '\n' *)
Definition CR : char_type := "013"%char.   (* '\r' *)

Definition char_eqb (a b : char_type) : bool := Ascii.eqb a b.

(** A [std::string] from a literal. *)
Definition str (s : String.string) : cstring := String.list_ascii_of_string s.
Arguments str s%_string.

Module traits_type.

Definition eof : int_type := -1.

(** [to_int_type] goes through [unsigned char]: the result is in [0, 255]. *)
Definition to_int_type (c : char_type) : int_type := Z.of_N (N_of_ascii c).

(** [to_char_type] keeps the low eight bits. *)
Definition to_char_type (i : int_type) : char_type :=
  ascii_of_N (Z.to_N (i mod 256)).

Definition eq_int_type (a b : int_type) : bool := Z.eqb a b.

Definition not_eof (i : int_type) : int_type :=
  if eq_int_type i eof then 0 else i.

End traits_type.

(** ** ThreadSafeQueue.hpp *)

Module ThreadSafeQueue.

Section WithItem.

Context {T : Type}.

(** The data members guarded by [mutex_]: the deque and the closed flag. *)
Record t : Type := mk { queue_ : list T; closed_ : bool }.

(** A default-constructed queue: empty, [closed_ = false]. *)
Definition create : t := {| queue_ := []; closed_ := false |}.

Definition empty (d : list T) : bool :=
  match d with [] => true | _ :: _ => false end.

(** [void push(T value)]: nothing happens after [close()]. *)
Definition push (value : T) (q : t) : t :=
  if closed_ q then q
  else {| queue_ := queue_ q ++ [value]; closed_ := closed_ q |}.

(** The predicate [cv_.wait] waits for in [pop]. *)
Definition ready (q : t) : bool := closed_ q || negb (empty (queue_ q)).

(** What a call of [bool pop(T& out)] does: it stays in [cv_.wait], or
    returns [false] leaving [out] alone, or returns [true] having moved the
    front item into [out]. *)
Inductive popped : Type :=
  | PopWaits
  | PopFalse
  | PopTrue (out : T).

Definition pop (q : t) : popped * t :=
  if ready q then
    match queue_ q with
    | [] => (PopFalse, q)
    | front :: rest => (PopTrue front, {| queue_ := rest; closed_ := closed_ q |})
    end
  else (PopWaits, q).

(** [void close()] *)
Definition close (q : t) : t := {| queue_ := queue_ q; closed_ := true |}.

(** [bool closed() const] *)
Definition closed (q : t) : bool := closed_ q.

(** *** Executions: sequences of calls, in the order the mutex serialises them *)

Inductive call : Type :=
  | Push (value : T)
  | Pop
  | Close.

(** One call; a [Pop] reports what [pop] did. *)
Definition step (c : call) (q : t) : option popped * t :=
  match c with
  | Push value => (None, push value q)
  | Pop => let '(r, q') := pop q in (Some r, q')
  | Close => (None, close q)
  end.

(** The items handed out by one call. *)
Definition handed_out (r : option popped) : list T :=
  match r with
  | Some (PopTrue out) => [out]
  | _ => []
  end.

(** Running a sequence of calls: the items the pops returned, in order, and
    the final queue. *)
Fixpoint run (cs : list call) (q : t) : list T * t :=
  match cs with
  | [] => ([], q)
  | c :: cs' =>
      let '(r, q1) := step c q in
      let '(outs, q2) := run cs' q1 in
      (handed_out r ++ outs, q2)
  end.

(** The values of the [push] calls of a sequence. *)
Fixpoint pushes (cs : list call) : list T :=
  match cs with
  | [] => []
  | Push value :: cs' => value :: pushes cs'
  | _ :: cs' => pushes cs'
  end.

Fixpoint has_close (cs : list call) : bool :=
  match cs with
  | [] => false
  | Close :: _ => true
  | _ :: cs' => has_close cs'
  end.

(** [n] successive calls of [pop]. *)
Fixpoint pop_n (n : nat) (q : t) : list popped * t :=
  match n with
  | O => ([], q)
  | S n' =>
      let '(r, q1) := pop q in
      let '(rs, q2) := pop_n n' q1 in
      (r :: rs, q2)
  end.

Definition push_all (xs : list T) (q : t) : t :=
  fold_left (fun acc x => push x acc) xs q.

(** The values of the [push] calls that find the queue open, [c] being the
    closed flag before the first call: those made before the first [close]. *)
Fixpoint accepted (cs : list call) (c : bool) : list T :=
  match cs with
  | [] => []
  | Push value :: cs' => if c then accepted cs' c else value :: accepted cs' c
  | Pop :: cs' => accepted cs' c
  | Close :: cs' => accepted cs' true
  end.

End WithItem.

Arguments t T : clear implicits.
Arguments popped T : clear implicits.
Arguments call T : clear implicits.

End ThreadSafeQueue.

(** ** CommandStream.hpp *)

Module CommandStreambuf.

(** The storage a get-area pointer may point into: the one-character
    placeholder [buffer_], or the character array of [current_]. *)
Inductive storage : Type :=
  | Placeholder
  | CurrentData.

(** The streambuf's own state.  [queue_] is a reference to a queue owned by
    somebody else, so the queue is passed to and returned from [underflow]
    rather than stored here.  The three get-area pointers [eback()],
    [gptr()], [egptr()] always point into one array; they are kept as the
    array and three offsets into it. *)
Record t : Type := mk {
  current_ : cstring;
  area_ : storage;
  eback_ : nat;
  gptr_ : nat;
  egptr_ : nat
}.

(** The constructor: [setg(buffer_, buffer_, buffer_)], [current_] empty. *)
Definition create : t :=
  {| current_ := []; area_ := Placeholder; eback_ := 0; gptr_ := 0; egptr_ := 0 |}.

(** [setg(data, data, data + n)] with [data = current_.data()]. *)
Definition setg_current (cur : cstring) : t :=
  {| current_ := cur; area_ := CurrentData;
     eback_ := 0; gptr_ := 0; egptr_ := length cur |}.

(** The character array behind [std::string::data()]: [size()] characters
    followed by the terminating null character, so that
    [data() + size()] may be read and holds ['\0']. *)
Definition data (s : cstring) : list char_type := s ++ [NUL].

(** Reading [*p] for a pointer at offset [off] of the get area's array.
    [None] is a read the language leaves undefined: the placeholder is
    never initialised, and the string's array ends after its null. *)
Definition deref (sb : t) (off : nat) : option char_type :=
  match area_ sb with
  | Placeholder => None
  | CurrentData => data (current_ sb) !! off
  end.

(** [current_.back() != '\n'] on a non-empty string. *)
Definition back_is_newline (s : cstring) : bool :=
  match last s with
  | Some c => char_eqb c LF
  | None => false
  end.

(** Lines 34-35: a newline is pushed when the command is not empty and
    does not already end with one. *)
Definition ensure_newline (cur : cstring) : cstring :=
  if negb (ThreadSafeQueue.empty cur) && negb (back_is_newline cur)
  then cur ++ [LF]
  else cur.

Inductive outcome (A : Type) : Type :=
  | Ok (a : A)
  | Blocks              (* the call is waiting inside [queue_.pop] *)
  | Fault.              (* an undefined read *)

Arguments Ok {A} a.
Arguments Blocks {A}.
Arguments Fault {A}.

(** [return traits_type::to_int_type( *gptr() )] *)
Definition return_current (sb : t) (q : ThreadSafeQueue.t cstring)
  : outcome (int_type * t * ThreadSafeQueue.t cstring) :=
  match deref sb (gptr_ sb) with
  | Some c => Ok (traits_type.to_int_type c, sb, q)
  | None => Fault
  end.

(** [int_type underflow() override] *)
Definition underflow (sb : t) (q : ThreadSafeQueue.t cstring)
  : outcome (int_type * t * ThreadSafeQueue.t cstring) :=
  if (gptr_ sb <? egptr_ sb)%nat then return_current sb q
  else
    match ThreadSafeQueue.pop q with
    | (ThreadSafeQueue.PopWaits, _) => Blocks
    | (ThreadSafeQueue.PopFalse, q') => Ok (traits_type.eof, sb, q')
    | (ThreadSafeQueue.PopTrue cmd, q') =>
        return_current (setg_current (ensure_newline cmd)) q'
    end.

(** The pending part of the get area, [gptr(), egptr()): the characters a
    reader consumes before [underflow] is called again. *)
Definition pending (sb : t) : list char_type :=
  match area_ sb with
  | Placeholder => []
  | CurrentData =>
      take (egptr_ sb - gptr_ sb) (drop (gptr_ sb) (data (current_ sb)))
  end.

(** [std::streambuf::gbump(1)], what a reader does after taking [*gptr()]. *)
Definition gbump1 (sb : t) : t :=
  {| current_ := current_ sb; area_ := area_ sb;
     eback_ := eback_ sb; gptr_ := S (gptr_ sb); egptr_ := egptr_ sb |}.

(** [std::streambuf::sbumpc()] as the standard library defines it on top of
    the virtual [underflow]: the character at the read position, which is
    then advanced; [uflow()] (that is [underflow()] followed by the advance)
    when the get area is used up. *)
Definition sbumpc (sb : t) (q : ThreadSafeQueue.t cstring)
  : outcome (int_type * t * ThreadSafeQueue.t cstring) :=
  match underflow sb q with
  | Ok (c, sb', q') =>
      if traits_type.eq_int_type c traits_type.eof then Ok (c, sb', q')
      else Ok (c, gbump1 sb', q')
  | Blocks => Blocks
  | Fault => Fault
  end.

(** [n] successive [sbumpc()] calls: the characters read, then how the
    sequence of calls ended. *)
Fixpoint read_n (n : nat) (sb : t) (q : ThreadSafeQueue.t cstring)
  : outcome (list int_type * t * ThreadSafeQueue.t cstring) :=
  match n with
  | O => Ok ([], sb, q)
  | S n' =>
      match sbumpc sb q with
      | Ok (c, sb1, q1) =>
          match read_n n' sb1 q1 with
          | Ok (cs, sb2, q2) => Ok (c :: cs, sb2, q2)
          | Blocks => Blocks
          | Fault => Fault
          end
      | Blocks => Blocks
      | Fault => Fault
      end
  end.

(** [std::streambuf::gbump(n)] *)
Definition gbump (n : nat) (sb : t) : t :=
  {| current_ := current_ sb; area_ := area_ sb;
     eback_ := eback_ sb; gptr_ := gptr_ sb + n; egptr_ := egptr_ sb |}.

(** The get area the member functions keep: empty over the placeholder,
    or the whole of [current_], with [egptr()] at [data() + size()]. *)
Definition get_area_ok (sb : t) : Prop :=
  match area_ sb with
  | Placeholder => egptr_ sb = 0%nat
  | CurrentData => egptr_ sb = length (current_ sb)
  end.

(** [std::streambuf::sgetc()] as the standard library defines it: the
    character at the read position, which stays where it is, or the result
    of [underflow()] when the get area is used up.  [underflow] starts with
    the same test, so the two coincide. *)
Definition sgetc (sb : t) (q : ThreadSafeQueue.t cstring)
  : outcome (int_type * t * ThreadSafeQueue.t cstring) :=
  underflow sb q.

(** A reader is any sequence of the two calls; [snextc()] is [sbumpc()]
    followed by [sgetc()], and [std::getline] peeks with [sgetc()] and
    moves on with [snextc()]. *)
Inductive read_call : Type :=
  | Sgetc
  | Sbumpc.

Fixpoint reads (ops : list read_call) (sb : t) (q : ThreadSafeQueue.t cstring)
  : outcome (list int_type * t * ThreadSafeQueue.t cstring) :=
  match ops with
  | [] => Ok ([], sb, q)
  | op :: ops' =>
      match (match op with Sgetc => sgetc sb q | Sbumpc => sbumpc sb q end) with
      | Ok (c, sb1, q1) =>
          match reads ops' sb1 q1 with
          | Ok (cs, sb2, q2) => Ok (c :: cs, sb2, q2)
          | Blocks => Blocks
          | Fault => Fault
          end
      | Blocks => Blocks
      | Fault => Fault
      end
  end.

(** The characters still to come: the rest of the current command, then
    every queued command with its newline. *)
Definition stream (sb : t) (q : ThreadSafeQueue.t cstring) : list char_type :=
  pending sb ++ concat (map ensure_newline (ThreadSafeQueue.queue_ q)).

(** The same reader on a plain sequence of characters [s] that ends with
    end of file when [closed] and never ends otherwise: the values returned
    and the characters left, or [None] when a call has to wait. *)
Fixpoint reads_of_stream (closed : bool) (ops : list read_call)
    (s : list char_type) : option (list int_type * list char_type) :=
  match ops with
  | [] => Some ([], s)
  | op :: ops' =>
      match s with
      | c :: s' =>
          match reads_of_stream closed ops'
                  (match op with Sgetc => s | Sbumpc => s' end) with
          | Some (cs, rest) => Some (traits_type.to_int_type c :: cs, rest)
          | None => None
          end
      | [] =>
          if closed then
            match reads_of_stream closed ops' [] with
            | Some (cs, rest) => Some (traits_type.eof :: cs, rest)
            | None => None
            end
          else None
      end
  end.

(** The states a reader meets when no queued command is empty: a get area
    as the member functions keep it, with the read position inside it. *)
Definition reader_ok (sb : t) (q : ThreadSafeQueue.t cstring) : Prop :=
  get_area_ok sb
  /\ (gptr_ sb <= egptr_ sb)%nat
  /\ Forall (fun cmd => cmd <> []) (ThreadSafeQueue.queue_ q).

(** What successive [sbumpc()] calls hand out for one command: the command
    with its newline, or the single null read behind an empty command. *)
Definition seen_by_reader (cmd : cstring) : list char_type :=
  match cmd with
  | [] => [NUL]
  | _ :: _ => ensure_newline cmd
  end.

End CommandStreambuf.

(** ** LineBufferStream.hpp *)

Module LineBufferStreambuf.

Section WithHost.

(** The state of the host application the line callback acts on. *)
Context {Host : Type}.

(** [std::function<void(const std::string&)>]; an empty function object is
    [None] where one is stored. *)
Definition LineCallback : Type := cstring -> Host -> Host.

Record t : Type := mk {
  callback_ : option LineCallback;
  buffer_ : cstring
}.

(** [explicit LineBufferStreambuf(LineCallback cb)] *)
Definition create (cb : option LineCallback) : t :=
  {| callback_ := cb; buffer_ := [] |}.

(** [void flush_line()] *)
Definition flush_line (sb : t) (h : Host) : t * Host :=
  match callback_ sb with
  | None => (sb, h)
  | Some cb =>
      if ThreadSafeQueue.empty (buffer_ sb) then (sb, h)
      else ({| callback_ := callback_ sb; buffer_ := [] |}, cb (buffer_ sb) h)
  end.

(** [int_type overflow(int_type ch) override] *)
Definition overflow (sb : t) (ch : int_type) (h : Host) : int_type * t * Host :=
  if traits_type.eq_int_type ch traits_type.eof
  then (traits_type.not_eof ch, sb, h)
  else
    let c := traits_type.to_char_type ch in
    if char_eqb c CR then (traits_type.not_eof ch, sb, h)
    else if char_eqb c LF then
      let '(sb', h') := flush_line sb h in (traits_type.not_eof ch, sb', h')
    else
      (traits_type.not_eof ch,
       {| callback_ := callback_ sb; buffer_ := buffer_ sb ++ [c] |}, h).

(** [int sync() override] *)
Definition sync (sb : t) (h : Host) : Z * t * Host :=
  let '(sb', h') := flush_line sb h in (0, sb', h').

(** Writing characters one at a time.  The streambuf never sets up a put
    area, so [sputc(c)] is [overflow(to_int_type(c))] for every character. *)
Definition sputc (c : char_type) (sb : t) (h : Host) : t * Host :=
  let '(_, sb', h') := overflow sb (traits_type.to_int_type c) h in (sb', h').

Fixpoint feed (cs : list char_type) (sb : t) (h : Host) : t * Host :=
  match cs with
  | [] => (sb, h)
  | c :: cs' => let '(sb1, h1) := sputc c sb h in feed cs' sb1 h1
  end.

(** Any sequence of calls of the two virtual functions. *)
Inductive call : Type :=
  | Overflow (ch : int_type)
  | Sync.

Definition step (c : call) (sb : t) (h : Host) : t * Host :=
  match c with
  | Overflow ch => let '(_, sb', h') := overflow sb ch h in (sb', h')
  | Sync => let '(_, sb', h') := sync sb h in (sb', h')
  end.

Fixpoint run (cs : list call) (sb : t) (h : Host) : t * Host :=
  match cs with
  | [] => (sb, h)
  | c :: cs' => let '(sb1, h1) := step c sb h in run cs' sb1 h1
  end.

(** The characters a sequence of calls appends to [buffer_]. *)
Definition appended (c : call) : list char_type :=
  match c with
  | Overflow ch =>
      if traits_type.eq_int_type ch traits_type.eof then []
      else
        let c := traits_type.to_char_type ch in
        if char_eqb c CR || char_eqb c LF then [] else [c]
  | Sync => []
  end.

End WithHost.

Arguments t Host : clear implicits.
Arguments LineCallback Host : clear implicits.
Arguments call : clear implicits.

(** A host that records every line it is called with, oldest first. *)
Definition record_line : LineCallback (list cstring) :=
  fun line seen => seen ++ [line].

(** The characters of a text that reach the buffer when no newline is
    among them: all but the carriage returns. *)
Definition without_cr (text : cstring) : cstring :=
  filter (fun c => c <> CR) text.

(** A text free of carriage returns and newlines. *)
Definition clean (text : cstring) : Prop :=
  Forall (fun c => c <> CR /\ c <> LF) text.

(** The characters of a text that [overflow] appends to the buffer. *)
Definition kept (text : cstring) : cstring :=
  filter (fun c => c <> CR /\ c <> LF) text.

(** Writing a text, as calls of [overflow]. *)
Definition writes (text : cstring) : list call :=
  map (fun c => Overflow (traits_type.to_int_type c)) text.

(** Lines put one after the other, each followed by the line ending [eol]. *)
Definition terminated (eol : cstring) (lines : list cstring) : cstring :=
  concat (map (fun line => line ++ eol) lines).

(** The callback called on each line in turn. *)
Definition deliver_all {Host : Type} (cb : LineCallback Host)
    (lines : list cstring) (h : Host) : Host :=
  fold_left (fun acc line => cb line acc) lines h.

End LineBufferStreambuf.

(** ** EmbeddedUCI.cpp *)

Module EmbeddedUCI.

(** A [std::streambuf*]: an address, [0] for [nullptr]. *)
Definition streambuf_ptr : Type := N.
Definition nullptr : streambuf_ptr := 0%N.

(** The part of a stream that matters here: the buffer it is bound to. *)
Record ios : Type := { rdbuf_ : streambuf_ptr }.

(** [rdbuf()] *)
Definition rdbuf (s : ios) : streambuf_ptr := rdbuf_ s.

(** [rdbuf(sb)]: binds the stream to [sb] and returns the previous buffer. *)
Definition set_rdbuf (sb : streambuf_ptr) (s : ios) : streambuf_ptr * ios :=
  (rdbuf_ s, {| rdbuf_ := sb |}).

(** How a run of the engine part ends. *)
Inductive completion : Type :=
  | Returns     (* [uci.loop()] came back *)
  | Throws      (* an exception leaves the function *)
  | Hangs.      (* the engine never comes back *)

Section WithHost.

Context {Host : Type}.

(** The stream buffers of the process.  A command buffer is kept with the
    queue it refers to; a buffer of any other class (a [std::stringbuf], the
    file buffers [std::cin] and [std::cout] start with) takes every
    character written to it, and is kept as the characters it has received. *)
Inductive streambuf : Type :=
  | CommandBuf (sb : CommandStreambuf.t) (q : ThreadSafeQueue.t cstring)
  | LineBuf (sb : LineBufferStreambuf.t Host)
  | OtherBuf (received : cstring).

(** The process state the function acts on: the two global streams, the
    stream buffers by address, and the host the line callback acts on. *)
Record World : Type := {
  cin : ios;
  cout : ios;
  heap : gmap N streambuf;
  host : Host
}.

Definition with_cin (s : ios) (w : World) : World :=
  {| cin := s; cout := cout w; heap := heap w; host := host w |}.

Definition with_cout (s : ios) (w : World) : World :=
  {| cin := cin w; cout := s; heap := heap w; host := host w |}.

Definition with_line_buf (p : streambuf_ptr) (sb : LineBufferStreambuf.t Host)
    (h : Host) (w : World) : World :=
  {| cin := cin w; cout := cout w; heap := <[p := LineBuf sb]> (heap w); host := h |}.

Definition with_other_buf (p : streambuf_ptr) (received : cstring)
    (w : World) : World :=
  {| cin := cin w; cout := cout w;
     heap := <[p := OtherBuf received]> (heap w); host := host w |}.

(** *** class StreamRedirector *)

Record StreamRedirector : Type := {
  oldInBuf_ : streambuf_ptr;
  oldOutBuf_ : streambuf_ptr
}.

(** [StreamRedirector(std::istream& in, std::ostream& out)] *)
Definition StreamRedirector_ctor (in_ out : ios) (w : World)
  : StreamRedirector * World :=
  let '(old_in, cin') := set_rdbuf (rdbuf in_) (cin w) in
  let w1 := with_cin cin' w in
  let '(old_out, cout') := set_rdbuf (rdbuf out) (cout w1) in
  let w2 := with_cout cout' w1 in
  ({| oldInBuf_ := old_in; oldOutBuf_ := old_out |}, w2).

(** [~StreamRedirector()] *)
Definition StreamRedirector_dtor (r : StreamRedirector) (w : World) : World :=
  let '(_, cin') := set_rdbuf (oldInBuf_ r) (cin w) in
  let w1 := with_cin cin' w in
  let '(_, cout') := set_rdbuf (oldOutBuf_ r) (cout w1) in
  with_cout cout' w1.

(** *** Writing to [std::cout] *)

(** [std::cout << s]: the characters go, one [sputc] each, to the buffer
    [std::cout] is bound to at that moment.  A command buffer has no put
    area and inherits [std::streambuf::overflow], which refuses every
    character; so does a stream without a buffer. *)
Definition cout_write (s : cstring) (w : World) : World :=
  match heap w !! rdbuf (cout w) with
  | Some (LineBuf sb) =>
      let '(sb', h') := LineBufferStreambuf.feed s sb (host w) in
      with_line_buf (rdbuf (cout w)) sb' h' w
  | Some (OtherBuf received) =>
      with_other_buf (rdbuf (cout w)) (received ++ s) w
  | _ => w
  end.

(** [std::cout << std::endl]: [put('\n')], then [flush()], which calls the
    buffer's [sync()]. *)
Definition cout_endl (w : World) : World :=
  match heap w !! rdbuf (cout w) with
  | Some (LineBuf sb) =>
      let '(sb1, h1) := LineBufferStreambuf.sputc LF sb (host w) in
      let '(_, sb2, h2) := LineBufferStreambuf.sync sb1 h1 in
      with_line_buf (rdbuf (cout w)) sb2 h2 w
  | Some (OtherBuf received) =>
      with_other_buf (rdbuf (cout w)) (received ++ [LF]) w
  | _ => w
  end.

(** *** RunStockfishUCI *)

(** What the function takes from Stockfish itself: the identification
    string [engine_info()], and everything from [Bitboards::init()] to the
    return of [uci.loop()] (lines 48-63) as one opaque run. *)
Variable engine_info : cstring.
Variable engine_run : World -> World * completion.

(** [void RunStockfishUCI(std::istream& in, std::ostream& out)].  The local
    [redirect] is destroyed when the function is left, by a return or by an
    exception; it is not when the engine never comes back. *)
Definition RunStockfishUCI (in_ out : ios) (w : World) : World * completion :=
  let '(redirect, w1) := StreamRedirector_ctor in_ out w in
  let w2 := cout_endl (cout_write engine_info w1) in
  let '(w3, c) := engine_run w2 in
  match c with
  | Hangs => (w3, Hangs)
  | _ => (StreamRedirector_dtor redirect w3, c)
  end.

(** The state in which the engine part starts. *)
Definition at_engine_start (in_ out : ios) (w : World) : World :=
  cout_endl (cout_write engine_info (snd (StreamRedirector_ctor in_ out w))).

End WithHost.

Arguments streambuf Host : clear implicits.
Arguments World Host : clear implicits.

End EmbeddedUCI.

(** * Properties *)

(** ** The queue *)

Section QueueFacts.

Import ThreadSafeQueue.

Context {T : Type}.

Implicit Types (q : ThreadSafeQueue.t T) (cs : list (call T)) (xs : list T).

Lemma push_open q x :
  closed_ q = false ->
  push x q = {| queue_ := queue_ q ++ [x]; closed_ := false |}.
Proof. intros Hc. unfold push. now rewrite Hc. Qed.

Lemma push_closed q x : closed_ q = true -> push x q = q.
Proof. intros Hc. unfold push. now rewrite Hc. Qed.

Lemma pop_front q x rest :
  queue_ q = x :: rest ->
  pop q = (PopTrue x, {| queue_ := rest; closed_ := closed_ q |}).
Proof.
  intros Hq. unfold pop, ready. rewrite Hq. cbn.
  now rewrite orb_true_r.
Qed.

Lemma pop_empty q :
  queue_ q = [] ->
  pop q = (if closed_ q then PopFalse else PopWaits, q).
Proof.
  intros Hq. unfold pop, ready. rewrite Hq. cbn.
  rewrite orb_false_r. now destruct (closed_ q).
Qed.

Lemma pop_false_iff q :
  (pop q).1 = PopFalse <-> closed_ q = true /\ queue_ q = [].
Proof.
  destruct (queue_ q) as [|x rest] eqn:Hq.
  - rewrite (pop_empty q Hq). cbn. destruct (closed_ q); split.
    + auto.
    + auto.
    + discriminate.
    + intros [? _]. discriminate.
  - rewrite (pop_front q x rest Hq). cbn. split.
    + discriminate.
    + intros [_ ?]. discriminate.
Qed.

Lemma push_all_open xs : forall q,
  closed_ q = false ->
  push_all xs q = {| queue_ := queue_ q ++ xs; closed_ := false |}.
Proof.
  unfold push_all.
  induction xs as [|x xs IH]; intros q Hc; cbn [fold_left].
  - rewrite app_nil_r. destruct q; cbn in *. now subst.
  - rewrite IH; rewrite (push_open q x Hc); cbn; [|reflexivity].
    now rewrite <- app_assoc.
Qed.

Lemma pop_n_all xs : forall b,
  pop_n (length xs) {| queue_ := xs; closed_ := b |}
  = (map PopTrue xs, {| queue_ := []; closed_ := b |}).
Proof.
  induction xs as [|x xs IH]; intros b; cbn [length pop_n map].
  - reflexivity.
  - rewrite (pop_front {| queue_ := x :: xs; closed_ := b |} x xs eq_refl).
    cbn [closed_]. now rewrite IH.
Qed.

(** While the queue is open and nobody closes it, what the pops returned
    followed by what is still queued is what was queued at the start
    followed by every pushed value. *)
Lemma run_open cs : forall q,
  closed_ q = false ->
  has_close cs = false ->
  (run cs q).1 ++ queue_ (run cs q).2 = queue_ q ++ pushes cs
  /\ closed_ (run cs q).2 = false.
Proof.
  induction cs as [|c cs IH]; intros q Hc Hn; cbn [run pushes].
  - cbn. now rewrite app_nil_r.
  - destruct c as [v| |]; cbn [has_close] in Hn; [| |discriminate].
    + cbn [step]. specialize (IH (push v q)).
      destruct (run cs (push v q)) as [outs q2] eqn:Hr. cbn [fst snd] in *.
      rewrite (push_open q v Hc) in IH. cbn [queue_ closed_] in IH.
      destruct (IH eq_refl Hn) as [IH1 IH2]. split; [|exact IH2].
      cbn. rewrite IH1. now rewrite <- app_assoc.
    + cbn [step]. destruct (queue_ q) as [|x rest] eqn:Hq.
      * rewrite (pop_empty q Hq), Hc.
        specialize (IH q Hc Hn).
        destruct (run cs q) as [outs q2]. cbn [fst snd handed_out] in *.
        rewrite Hq in IH. exact IH.
      * rewrite (pop_front q x rest Hq).
        specialize (IH {| queue_ := rest; closed_ := closed_ q |}).
        destruct (run cs _) as [outs q2]. cbn [fst snd handed_out queue_ closed_] in *.
        destruct (IH Hc Hn) as [IH1 IH2]. split; [|exact IH2].
        cbn. now rewrite IH1.
Qed.

(** On a closed queue no call adds an item: what later pops return followed
    by what is left is what was queued when the queue was closed. *)
Lemma run_closed cs : forall q,
  closed_ q = true ->
  (run cs q).1 ++ queue_ (run cs q).2 = queue_ q
  /\ closed_ (run cs q).2 = true.
Proof.
  induction cs as [|c cs IH]; intros q Hc; cbn [run].
  - cbn. auto.
  - destruct c as [v| |]; cbn [step].
    + rewrite (push_closed q v Hc). specialize (IH q Hc).
      destruct (run cs q) as [outs q2]. exact IH.
    + destruct (queue_ q) as [|x rest] eqn:Hq.
      * rewrite (pop_empty q Hq), Hc. specialize (IH q Hc).
        destruct (run cs q) as [outs q2]. cbn [fst snd handed_out] in *.
        rewrite Hq in IH. exact IH.
      * rewrite (pop_front q x rest Hq).
        specialize (IH {| queue_ := rest; closed_ := closed_ q |} Hc).
        destruct (run cs _) as [outs q2]. cbn [fst snd handed_out queue_ closed_] in *.
        destruct IH as [IH1 IH2]. split; [|exact IH2]. cbn. now rewrite IH1.
    + assert (Hq : close q = q) by (destruct q; cbn in *; now subst).
      rewrite Hq. specialize (IH q Hc).
      destruct (run cs q) as [outs q2]. exact IH.
Qed.

End QueueFacts.

(** C1 (FIFO order).  On a queue that has not been closed, and with no
    [close] among the calls: pushing [xs] and then popping once per queued
    item returns the items queued before followed by [xs], in that order,
    each exactly once, and empties the queue; and for every interleaving
    [cs] of [push] and [pop] calls, the items returned so far followed by
    the items still queued are the items queued at the start followed by
    the pushed values in push order, so nothing is lost, duplicated or
    reordered. *)
Theorem queue_fifo_order {T : Type} (q : ThreadSafeQueue.t T) (xs : list T)
    (cs : list (ThreadSafeQueue.call T)) :
  ThreadSafeQueue.closed_ q = false ->
  ThreadSafeQueue.has_close cs = false ->
  ThreadSafeQueue.pop_n (length (ThreadSafeQueue.queue_ q ++ xs))
                        (ThreadSafeQueue.push_all xs q)
  = (map ThreadSafeQueue.PopTrue (ThreadSafeQueue.queue_ q ++ xs),
     {| ThreadSafeQueue.queue_ := []; ThreadSafeQueue.closed_ := false |})
  /\ (ThreadSafeQueue.run cs q).1 ++ ThreadSafeQueue.queue_ (ThreadSafeQueue.run cs q).2
     = ThreadSafeQueue.queue_ q ++ ThreadSafeQueue.pushes cs.
Proof.
  intros Hc Hn. split.
  - rewrite (push_all_open xs q Hc). apply pop_n_all.
  - apply (run_open cs q Hc Hn).
Qed.

Lemma queue_fifo_order_witness :
  ThreadSafeQueue.pop_n 3
    (ThreadSafeQueue.push_all [1; 2; 3]%nat ThreadSafeQueue.create)
  = ([ThreadSafeQueue.PopTrue 1; ThreadSafeQueue.PopTrue 2;
      ThreadSafeQueue.PopTrue 3]%nat,
     {| ThreadSafeQueue.queue_ := []; ThreadSafeQueue.closed_ := false |})
  /\ (ThreadSafeQueue.run
        [ThreadSafeQueue.Push 1; ThreadSafeQueue.Pop; ThreadSafeQueue.Pop;
         ThreadSafeQueue.Push 2; ThreadSafeQueue.Push 3; ThreadSafeQueue.Pop]%nat
        ThreadSafeQueue.create).1
     ++ ThreadSafeQueue.queue_
          (ThreadSafeQueue.run
             [ThreadSafeQueue.Push 1; ThreadSafeQueue.Pop; ThreadSafeQueue.Pop;
              ThreadSafeQueue.Push 2; ThreadSafeQueue.Push 3; ThreadSafeQueue.Pop]%nat
             ThreadSafeQueue.create).2
     = [1; 2; 3]%nat.
Proof.
  exact (queue_fifo_order (T := nat) ThreadSafeQueue.create [1; 2; 3]%nat
           [ThreadSafeQueue.Push 1; ThreadSafeQueue.Pop; ThreadSafeQueue.Pop;
            ThreadSafeQueue.Push 2; ThreadSafeQueue.Push 3; ThreadSafeQueue.Pop]%nat
           eq_refl eq_refl).
Defined.

(** The interleaving of the witness, step by step: the second [pop] finds
    the open queue empty and waits. *)
Example queue_run_interleaved :
  ThreadSafeQueue.run
    [ThreadSafeQueue.Push 1; ThreadSafeQueue.Pop; ThreadSafeQueue.Pop;
     ThreadSafeQueue.Push 2; ThreadSafeQueue.Push 3; ThreadSafeQueue.Pop]%nat
    ThreadSafeQueue.create
  = ([1; 2]%nat, {| ThreadSafeQueue.queue_ := [3%nat]; ThreadSafeQueue.closed_ := false |}).
Proof. reflexivity. Qed.

(** C6 (push after close).  On a closed queue [push y] returns normally and
    leaves items and flag as they were; whatever calls follow, the queue
    stays closed and the pops return only items that were queued before the
    push, in order, so a [y] that was not among them is never returned; and
    on a closed empty queue the next [pop] reports end of input at once. *)
Theorem push_after_close_inert {T : Type} (q : ThreadSafeQueue.t T) (y : T)
    (cs : list (ThreadSafeQueue.call T)) :
  ThreadSafeQueue.closed_ q = true ->
  ThreadSafeQueue.push y q = q
  /\ (ThreadSafeQueue.run cs (ThreadSafeQueue.push y q)).1
     ++ ThreadSafeQueue.queue_ (ThreadSafeQueue.run cs (ThreadSafeQueue.push y q)).2
     = ThreadSafeQueue.queue_ q
  /\ ThreadSafeQueue.closed_ (ThreadSafeQueue.run cs (ThreadSafeQueue.push y q)).2 = true
  /\ (~ In y (ThreadSafeQueue.queue_ q) ->
      ~ In y (ThreadSafeQueue.run cs (ThreadSafeQueue.push y q)).1)
  /\ (ThreadSafeQueue.queue_ q = [] ->
      ThreadSafeQueue.pop (ThreadSafeQueue.push y q) = (ThreadSafeQueue.PopFalse, q)).
Proof.
  intros Hc. rewrite (push_closed q y Hc).
  destruct (run_closed cs q Hc) as [Hitems Hflag].
  repeat split; try assumption.
  - intros Hnot Hin. apply Hnot. rewrite <- Hitems.
    apply in_or_app. now left.
  - intros Hq. rewrite (pop_empty q Hq). now rewrite Hc.
Qed.

Lemma push_after_close_inert_witness :
  let q := ThreadSafeQueue.close (ThreadSafeQueue.push 7%nat ThreadSafeQueue.create) in
  let cs := [ThreadSafeQueue.Pop; ThreadSafeQueue.Push 9%nat; ThreadSafeQueue.Pop] in
  ThreadSafeQueue.push 8%nat q = q
  /\ (ThreadSafeQueue.run cs (ThreadSafeQueue.push 8%nat q)).1
     ++ ThreadSafeQueue.queue_ (ThreadSafeQueue.run cs (ThreadSafeQueue.push 8%nat q)).2
     = [7%nat]
  /\ ThreadSafeQueue.closed_ (ThreadSafeQueue.run cs (ThreadSafeQueue.push 8%nat q)).2 = true
  /\ (~ In 8%nat [7%nat] ->
      ~ In 8%nat (ThreadSafeQueue.run cs (ThreadSafeQueue.push 8%nat q)).1)
  /\ (ThreadSafeQueue.queue_ q = [] ->
      ThreadSafeQueue.pop (ThreadSafeQueue.push 8%nat q) = (ThreadSafeQueue.PopFalse, q)).
Proof.
  exact (push_after_close_inert (T := nat)
           (ThreadSafeQueue.close (ThreadSafeQueue.push 7%nat ThreadSafeQueue.create))
           8%nat
           [ThreadSafeQueue.Pop; ThreadSafeQueue.Push 9%nat; ThreadSafeQueue.Pop]
           eq_refl).
Defined.

(** [close(); push(y)] on a fresh queue: the next [pop] returns [false]. *)
Example close_push_pop (y : nat) :
  ThreadSafeQueue.pop
    (ThreadSafeQueue.push y (ThreadSafeQueue.close ThreadSafeQueue.create))
  = (ThreadSafeQueue.PopFalse, ThreadSafeQueue.close ThreadSafeQueue.create).
Proof. reflexivity. Qed.

(** ** The input adapter *)

Section CommandFacts.

Import CommandStreambuf.

Implicit Types (sb : CommandStreambuf.t) (q : ThreadSafeQueue.t cstring)
  (cmd cur : cstring).

Lemma to_int_type_not_eof (c : char_type) :
  traits_type.eq_int_type (traits_type.to_int_type c) traits_type.eof = false.
Proof.
  unfold traits_type.eq_int_type, traits_type.to_int_type, traits_type.eof.
  apply Z.eqb_neq. lia.
Qed.

Lemma char_eqb_eq (a b : char_type) : char_eqb a b = true <-> a = b.
Proof. apply Ascii.eqb_eq. Qed.

Lemma back_is_newline_iff cur : back_is_newline cur = true <-> last cur = Some LF.
Proof.
  unfold back_is_newline. destruct (last cur) as [c|].
  - rewrite char_eqb_eq. split; [intros ->; reflexivity | intros [= ->]; reflexivity].
  - split; discriminate.
Qed.

Lemma ensure_newline_empty : ensure_newline [] = [].
Proof. reflexivity. Qed.

Lemma ensure_newline_kept cmd : last cmd = Some LF -> ensure_newline cmd = cmd.
Proof.
  intros Hl. unfold ensure_newline.
  apply back_is_newline_iff in Hl. rewrite Hl. now rewrite andb_false_r.
Qed.

Lemma ensure_newline_added cmd :
  cmd <> [] -> last cmd <> Some LF -> ensure_newline cmd = cmd ++ [LF].
Proof.
  intros Hne Hl. unfold ensure_newline.
  destruct cmd as [|c cmd]; [congruence|]. cbn [ThreadSafeQueue.empty negb andb].
  destruct (back_is_newline (c :: cmd)) eqn:Hb; [|reflexivity].
  apply back_is_newline_iff in Hb. contradiction.
Qed.

Lemma ensure_newline_last cmd : cmd <> [] -> last (ensure_newline cmd) = Some LF.
Proof.
  intros Hne. destruct (decide (last cmd = Some LF)) as [Hl|Hl].
  - now rewrite ensure_newline_kept.
  - rewrite ensure_newline_added by assumption. apply last_snoc.
Qed.

Lemma pending_setg_current cur : pending (setg_current cur) = cur.
Proof.
  unfold pending, setg_current, data.
  cbn [area_ current_ gptr_ egptr_ drop].
  rewrite Nat.sub_0_r. apply take_app_length.
Qed.

(** With the get area used up, [underflow] takes the front command. *)
Lemma underflow_pops sb q cmd rest :
  (gptr_ sb <? egptr_ sb)%nat = false ->
  ThreadSafeQueue.queue_ q = cmd :: rest ->
  underflow sb q
  = return_current (setg_current (ensure_newline cmd))
      {| ThreadSafeQueue.queue_ := rest;
         ThreadSafeQueue.closed_ := ThreadSafeQueue.closed_ q |}.
Proof.
  intros Hg Hq. unfold underflow. rewrite Hg.
  now rewrite (pop_front q cmd rest Hq).
Qed.

Lemma return_current_first c cur q :
  return_current (setg_current (c :: cur)) q
  = Ok (traits_type.to_int_type c, setg_current (c :: cur), q).
Proof. reflexivity. Qed.

(** Inside the current command [sbumpc] hands out the character under the
    read position and moves on. *)
Lemma sbumpc_inside cur i c q :
  cur !! i = Some c ->
  sbumpc {| current_ := cur; area_ := CurrentData; eback_ := 0;
            gptr_ := i; egptr_ := length cur |} q
  = Ok (traits_type.to_int_type c,
        {| current_ := cur; area_ := CurrentData; eback_ := 0;
           gptr_ := S i; egptr_ := length cur |}, q).
Proof.
  intros Hi. unfold sbumpc, underflow. cbn [gptr_ egptr_].
  assert (Hlt : (i < length cur)%nat) by (eapply lookup_lt_Some; eauto).
  apply Nat.ltb_lt in Hlt. rewrite Hlt.
  unfold return_current, deref, data. cbn [area_ current_ gptr_].
  rewrite lookup_app_l by (now apply Nat.ltb_lt).
  rewrite Hi. now rewrite to_int_type_not_eof.
Qed.

(** Reading on to the end of the current command. *)
Lemma read_n_inside cur q : forall k i,
  (i + k = length cur)%nat ->
  read_n k {| current_ := cur; area_ := CurrentData; eback_ := 0;
              gptr_ := i; egptr_ := length cur |} q
  = Ok (map traits_type.to_int_type (drop i cur),
        {| current_ := cur; area_ := CurrentData; eback_ := 0;
           gptr_ := length cur; egptr_ := length cur |}, q).
Proof.
  induction k as [|k IH]; intros i Hik; cbn [read_n].
  - assert (i = length cur) by lia. subst i.
    now rewrite drop_all.
  - destruct (cur !! i) as [c|] eqn:Hi.
    2:{ apply lookup_ge_None in Hi. lia. }
    rewrite (sbumpc_inside cur i c q Hi).
    rewrite (IH (S i)) by lia.
    rewrite (drop_S cur c i Hi). reflexivity.
Qed.

(** Reading a whole non-empty command, starting with the get area used up. *)
Lemma read_n_command sb q cmd rest :
  (gptr_ sb <? egptr_ sb)%nat = false ->
  ThreadSafeQueue.queue_ q = cmd :: rest ->
  cmd <> [] ->
  let cur := ensure_newline cmd in
  read_n (length cur) sb q
  = Ok (map traits_type.to_int_type cur,
        {| current_ := cur; area_ := CurrentData; eback_ := 0;
           gptr_ := length cur; egptr_ := length cur |},
        {| ThreadSafeQueue.queue_ := rest;
           ThreadSafeQueue.closed_ := ThreadSafeQueue.closed_ q |}).
Proof.
  intros Hg Hq Hne cur.
  assert (Hl : last cur = Some LF) by (now apply ensure_newline_last).
  destruct cur as [|c cur'] eqn:Hcur; [discriminate|].
  cbn [length read_n]. unfold sbumpc.
  rewrite (underflow_pops sb q cmd rest Hg Hq).
  fold cur. rewrite Hcur. rewrite return_current_first.
  rewrite to_int_type_not_eof. unfold gbump1, setg_current.
  cbn [current_ area_ eback_ gptr_ egptr_].
  change (S (length cur')) with (length (c :: cur')).
  rewrite (read_n_inside (c :: cur') _ (length cur') 1%nat) by (cbn; lia).
  reflexivity.
Qed.

End CommandFacts.

(** C2 (close drains before end of input).  Whatever the closed flag says,
    [pop] on a queue with front item [x] returns [x] and removes it; [pop]
    returns [false] exactly when the queue is closed and empty; once the get
    area is used up, so that [underflow] calls [pop], a [pop] that returns
    [false] makes [underflow] return [traits_type::eof()] and leave the
    adapter and the queue as they were; and after [push(x); close()] the
    first [pop] returns [x] and the second returns [false]. *)
Theorem pop_drains_then_eof {T : Type} (q : ThreadSafeQueue.t T) (x : T)
    (rest : list T) (sb : CommandStreambuf.t) (cq : ThreadSafeQueue.t cstring) :
  (ThreadSafeQueue.queue_ q = x :: rest ->
   ThreadSafeQueue.pop q
   = (ThreadSafeQueue.PopTrue x,
      {| ThreadSafeQueue.queue_ := rest;
         ThreadSafeQueue.closed_ := ThreadSafeQueue.closed_ q |}))
  /\ ((ThreadSafeQueue.pop q).1 = ThreadSafeQueue.PopFalse
      <-> ThreadSafeQueue.closed_ q = true /\ ThreadSafeQueue.queue_ q = [])
  /\ ((CommandStreambuf.gptr_ sb <? CommandStreambuf.egptr_ sb)%nat = false ->
      (ThreadSafeQueue.pop cq).1 = ThreadSafeQueue.PopFalse ->
      CommandStreambuf.underflow sb cq = CommandStreambuf.Ok (traits_type.eof, sb, cq))
  /\ ThreadSafeQueue.pop_n 2
       (ThreadSafeQueue.close (ThreadSafeQueue.push x ThreadSafeQueue.create))
     = ([ThreadSafeQueue.PopTrue x; ThreadSafeQueue.PopFalse],
        ThreadSafeQueue.close ThreadSafeQueue.create).
Proof.
  split; [exact (pop_front q x rest)|].
  split; [exact (pop_false_iff q)|].
  split; [|reflexivity].
  intros Hg Hp. unfold CommandStreambuf.underflow. rewrite Hg.
  destruct (ThreadSafeQueue.queue_ cq) as [|c cs] eqn:Hq.
  - rewrite (pop_empty cq Hq) in Hp |- *. cbn in Hp.
    destruct (ThreadSafeQueue.closed_ cq); [reflexivity|discriminate].
  - rewrite (pop_front cq c cs Hq) in Hp. discriminate.
Qed.

(** A closed queue that still holds a command is read to the end first. *)
Example underflow_after_close :
  let q := ThreadSafeQueue.close
             (ThreadSafeQueue.push (str "quit") ThreadSafeQueue.create) in
  CommandStreambuf.read_n 5 CommandStreambuf.create q
  = CommandStreambuf.Ok
      ([113; 117; 105; 116; 10],
       {| CommandStreambuf.current_ := str "quit" ++ [LF];
          CommandStreambuf.area_ := CommandStreambuf.CurrentData;
          CommandStreambuf.eback_ := 0; CommandStreambuf.gptr_ := 5;
          CommandStreambuf.egptr_ := 5 |},
       ThreadSafeQueue.close ThreadSafeQueue.create)
  /\ CommandStreambuf.read_n 6 CommandStreambuf.create q
     = CommandStreambuf.Ok
         ([113; 117; 105; 116; 10; traits_type.eof],
          {| CommandStreambuf.current_ := str "quit" ++ [LF];
             CommandStreambuf.area_ := CommandStreambuf.CurrentData;
             CommandStreambuf.eback_ := 0; CommandStreambuf.gptr_ := 5;
             CommandStreambuf.egptr_ := 5 |},
          ThreadSafeQueue.close ThreadSafeQueue.create).
Proof. split; reflexivity. Qed.

(** C4, as stated, fails for a command that ends with two newlines:
    [underflow] pushes a newline only where the command does not end with
    one and takes none away, so the get area it installs is the command as
    pushed, with two trailing newlines and not exactly one. *)
Lemma double_newline_exposed_unchanged :
  CommandStreambuf.underflow CommandStreambuf.create
    {| ThreadSafeQueue.queue_ := [str "x" ++ [LF; LF]];
       ThreadSafeQueue.closed_ := false |}
  = CommandStreambuf.Ok
      (120, CommandStreambuf.setg_current (str "x" ++ [LF; LF]),
       {| ThreadSafeQueue.queue_ := []; ThreadSafeQueue.closed_ := false |})
  /\ CommandStreambuf.pending (CommandStreambuf.setg_current (str "x" ++ [LF; LF]))
     = str "x" ++ [LF; LF]
  /\ ~ (forall (sb : CommandStreambuf.t) (q : ThreadSafeQueue.t cstring)
          (cmd : cstring) (rest : list cstring),
          (CommandStreambuf.gptr_ sb <? CommandStreambuf.egptr_ sb)%nat = false ->
          ThreadSafeQueue.queue_ q = cmd :: rest ->
          exists c sb' q' body,
            CommandStreambuf.underflow sb q = CommandStreambuf.Ok (c, sb', q')
            /\ CommandStreambuf.pending sb' = body ++ [LF]
            /\ last body <> Some LF).
Proof.
  split; [reflexivity|]. split; [reflexivity|].
  intros H.
  destruct (H CommandStreambuf.create
              {| ThreadSafeQueue.queue_ := [str "x" ++ [LF; LF]];
                 ThreadSafeQueue.closed_ := false |}
              (str "x" ++ [LF; LF]) [] eq_refl eq_refl)
    as (c & sb' & q' & body & Hu & Hp & Hl).
  cbv in Hu. injection Hu as <- <- <-.
  change (CommandStreambuf.pending _) with ((str "x" ++ [LF]) ++ [LF]) in Hp.
  apply app_inj_tail in Hp. destruct Hp as [<- _].
  apply Hl. reflexivity.
Qed.

(** The empty command: [underflow] pushes no newline onto an empty string,
    so the get area it installs is empty and does not end with a newline,
    where line 33 of the source wants every command to end with one. *)
Lemma empty_command_not_terminated :
  CommandStreambuf.underflow CommandStreambuf.create
    {| ThreadSafeQueue.queue_ := [[]]; ThreadSafeQueue.closed_ := false |}
  = CommandStreambuf.Ok
      (0, CommandStreambuf.setg_current [],
       {| ThreadSafeQueue.queue_ := []; ThreadSafeQueue.closed_ := false |})
  /\ CommandStreambuf.pending (CommandStreambuf.setg_current []) = []
  /\ ~ (forall (sb : CommandStreambuf.t) (q : ThreadSafeQueue.t cstring)
          (cmd : cstring) (rest : list cstring),
          (CommandStreambuf.gptr_ sb <? CommandStreambuf.egptr_ sb)%nat = false ->
          ThreadSafeQueue.queue_ q = cmd :: rest ->
          exists c sb' q',
            CommandStreambuf.underflow sb q = CommandStreambuf.Ok (c, sb', q')
            /\ last (CommandStreambuf.pending sb') = Some LF).
Proof.
  split; [reflexivity|]. split; [reflexivity|].
  intros H.
  destruct (H CommandStreambuf.create
              {| ThreadSafeQueue.queue_ := [[]]; ThreadSafeQueue.closed_ := false |}
              [] [] eq_refl eq_refl) as (c & sb' & q' & Hu & Hl).
  cbv in Hu. injection Hu as <- <- <-. discriminate Hl.
Qed.

(** C4, amended (command normalisation).  For a command that is not empty,
    popped when the get area is used up: [underflow] returns its first
    character and exposes a get area that ends with a newline; the get area
    is the command itself, with the newlines it was pushed with, when the
    command already ends with a newline, and the command followed by one
    newline, not two, when it does not; reading as many characters as the
    get area holds returns exactly these characters and uses the get area
    up. *)
Theorem command_newline_normalized (sb : CommandStreambuf.t)
    (q : ThreadSafeQueue.t cstring) (cmd : cstring) (rest : list cstring) :
  (CommandStreambuf.gptr_ sb <? CommandStreambuf.egptr_ sb)%nat = false ->
  ThreadSafeQueue.queue_ q = cmd :: rest ->
  cmd <> [] ->
  let q' := {| ThreadSafeQueue.queue_ := rest;
               ThreadSafeQueue.closed_ := ThreadSafeQueue.closed_ q |} in
  let sb' := CommandStreambuf.setg_current (CommandStreambuf.ensure_newline cmd) in
  CommandStreambuf.underflow sb q
  = CommandStreambuf.Ok (traits_type.to_int_type (hd NUL cmd), sb', q')
  /\ last (CommandStreambuf.pending sb') = Some LF
  /\ (last cmd = Some LF -> CommandStreambuf.pending sb' = cmd)
  /\ (last cmd <> Some LF ->
      CommandStreambuf.pending sb' = cmd ++ [LF]
      /\ CommandStreambuf.pending sb' <> cmd ++ [LF; LF])
  /\ exists sb_end,
       CommandStreambuf.read_n (length (CommandStreambuf.pending sb')) sb q
       = CommandStreambuf.Ok
           (map traits_type.to_int_type (CommandStreambuf.pending sb'), sb_end, q')
       /\ CommandStreambuf.pending sb_end = [].
Proof.
  intros Hg Hq Hne q' sb'. subst sb'.
  rewrite pending_setg_current.
  split; [|split; [|split; [|split]]].
  - rewrite (underflow_pops sb q cmd rest Hg Hq).
    destruct cmd as [|c tl]; [congruence|]. cbn [hd].
    assert (He : exists tl', CommandStreambuf.ensure_newline (c :: tl) = c :: tl').
    { unfold CommandStreambuf.ensure_newline.
      destruct (_ && _); [exists (tl ++ [LF])|exists tl]; reflexivity. }
    destruct He as [tl' ->]. reflexivity.
  - now apply ensure_newline_last.
  - apply ensure_newline_kept.
  - intros Hl. rewrite (ensure_newline_added cmd Hne Hl). split; [reflexivity|].
    intros Heq. apply (f_equal length) in Heq.
    rewrite !length_app in Heq. cbn in Heq. lia.
  - eexists. split.
    + apply (read_n_command sb q cmd rest Hg Hq Hne).
    + unfold CommandStreambuf.pending. cbn.
      rewrite Nat.sub_diag. reflexivity.
Qed.

Lemma command_newline_normalized_witness :
  CommandStreambuf.underflow CommandStreambuf.create
    {| ThreadSafeQueue.queue_ := [str "uci"; str "isready"];
       ThreadSafeQueue.closed_ := false |}
  = CommandStreambuf.Ok
      (117, CommandStreambuf.setg_current (str "uci" ++ [LF]),
       {| ThreadSafeQueue.queue_ := [str "isready"];
          ThreadSafeQueue.closed_ := false |}).
Proof.
  exact (proj1 (command_newline_normalized CommandStreambuf.create
                  {| ThreadSafeQueue.queue_ := [str "uci"; str "isready"];
                     ThreadSafeQueue.closed_ := false |}
                  (str "uci") [str "isready"] eq_refl eq_refl
                  ltac:(discriminate))).
Defined.

(** A command pushed with its newline is exposed unchanged, one pushed
    without is exposed with one newline added. *)
Example ensure_newline_examples :
  CommandStreambuf.ensure_newline (str "go" ++ [LF]) = str "go" ++ [LF]
  /\ CommandStreambuf.ensure_newline (str "go") = str "go" ++ [LF]
  /\ CommandStreambuf.ensure_newline [] = [].
Proof. repeat split. Qed.

(** C8 (the empty command).  When the get area is used up and the front of
    the queue is the empty string, [underflow] pushes no newline, installs
    the empty get area [eback() = gptr() = egptr()] over the string's array
    and reads the array at [egptr()]: the index equals the size of the
    string, where the array holds the terminating null, so the read is
    defined and [underflow] returns [0], which is not [eof()]; it neither
    blocks nor takes a second command. *)
Theorem empty_command_reads_null (sb : CommandStreambuf.t)
    (q : ThreadSafeQueue.t cstring) (rest : list cstring) :
  (CommandStreambuf.gptr_ sb <? CommandStreambuf.egptr_ sb)%nat = false ->
  ThreadSafeQueue.queue_ q = [] :: rest ->
  let sb' := CommandStreambuf.setg_current [] in
  CommandStreambuf.underflow sb q
  = CommandStreambuf.Ok
      (0, sb',
       {| ThreadSafeQueue.queue_ := rest;
          ThreadSafeQueue.closed_ := ThreadSafeQueue.closed_ q |})
  /\ CommandStreambuf.current_ sb' = []
  /\ CommandStreambuf.eback_ sb' = CommandStreambuf.gptr_ sb'
  /\ CommandStreambuf.gptr_ sb' = CommandStreambuf.egptr_ sb'
  /\ CommandStreambuf.pending sb' = []
  /\ CommandStreambuf.gptr_ sb' = length (CommandStreambuf.current_ sb')
  /\ (CommandStreambuf.gptr_ sb'
      < length (CommandStreambuf.data (CommandStreambuf.current_ sb')))%nat
  /\ CommandStreambuf.deref sb' (CommandStreambuf.gptr_ sb') = Some NUL
  /\ traits_type.to_int_type NUL = 0
  /\ traits_type.eq_int_type 0 traits_type.eof = false.
Proof.
  intros Hg Hq sb'. split.
  - rewrite (underflow_pops sb q [] rest Hg Hq). reflexivity.
  - subst sb'. cbn. repeat split; lia.
Qed.

Lemma empty_command_reads_null_witness :
  CommandStreambuf.underflow CommandStreambuf.create
    {| ThreadSafeQueue.queue_ := [[]; str "uci"];
       ThreadSafeQueue.closed_ := false |}
  = CommandStreambuf.Ok
      (0, CommandStreambuf.setg_current [],
       {| ThreadSafeQueue.queue_ := [str "uci"];
          ThreadSafeQueue.closed_ := false |}).
Proof.
  exact (proj1 (empty_command_reads_null CommandStreambuf.create
                  {| ThreadSafeQueue.queue_ := [[]; str "uci"];
                     ThreadSafeQueue.closed_ := false |}
                  [str "uci"] eq_refl eq_refl)).
Defined.

(** What a reader sees of an empty command followed by ["uci"]: one null
    character, then the next command, with no newline between them. *)
Example read_empty_then_uci :
  CommandStreambuf.read_n 5 CommandStreambuf.create
    {| ThreadSafeQueue.queue_ := [[]; str "uci"];
       ThreadSafeQueue.closed_ := false |}
  = CommandStreambuf.Ok
      ([0; 117; 99; 105; 10],
       {| CommandStreambuf.current_ := str "uci" ++ [LF];
          CommandStreambuf.area_ := CommandStreambuf.CurrentData;
          CommandStreambuf.eback_ := 0; CommandStreambuf.gptr_ := 4;
          CommandStreambuf.egptr_ := 4 |},
       {| ThreadSafeQueue.queue_ := []; ThreadSafeQueue.closed_ := false |}).
Proof. reflexivity. Qed.

(** ** The output adapter *)

Section LineFacts.

Import LineBufferStreambuf.

Context {Host : Type}.

Implicit Types (sb : LineBufferStreambuf.t Host) (h : Host) (buf : cstring)
  (cb : LineCallback Host) (ocb : option (LineCallback Host)).

Lemma to_char_of_to_int (c : char_type) :
  traits_type.to_char_type (traits_type.to_int_type c) = c.
Proof.
  unfold traits_type.to_char_type, traits_type.to_int_type.
  pose proof (N_ascii_bounded c) as Hb.
  rewrite Z.mod_small by lia.
  rewrite N2Z.id. apply ascii_N_embedding.
Qed.

Lemma char_eqb_refl (c : char_type) : char_eqb c c = true.
Proof. now apply char_eqb_eq. Qed.

Lemma char_eqb_neq (a b : char_type) : a <> b -> char_eqb a b = false.
Proof.
  intros Hne. destruct (char_eqb a b) eqn:He; [|reflexivity].
  apply char_eqb_eq in He. contradiction.
Qed.

Lemma flush_line_null buf h :
  flush_line {| callback_ := None; buffer_ := buf |} h
  = ({| callback_ := None; buffer_ := buf |}, h).
Proof. reflexivity. Qed.

Lemma flush_line_empty ocb h :
  flush_line {| callback_ := ocb; buffer_ := [] |} h
  = ({| callback_ := ocb; buffer_ := [] |}, h).
Proof. unfold flush_line. now destruct ocb. Qed.

Lemma flush_line_some cb buf h :
  buf <> [] ->
  flush_line {| callback_ := Some cb; buffer_ := buf |} h
  = ({| callback_ := Some cb; buffer_ := [] |}, cb buf h).
Proof. intros Hne. destruct buf; [congruence|reflexivity]. Qed.

Lemma overflow_eof sb h :
  overflow sb traits_type.eof h = (0, sb, h).
Proof. reflexivity. Qed.

Lemma overflow_cr ocb buf ch h :
  ch <> traits_type.eof ->
  traits_type.to_char_type ch = CR ->
  overflow {| callback_ := ocb; buffer_ := buf |} ch h
  = (ch, {| callback_ := ocb; buffer_ := buf |}, h).
Proof.
  intros Hne Hc. unfold overflow, traits_type.not_eof, traits_type.eq_int_type.
  apply Z.eqb_neq in Hne. rewrite Hne, Hc. reflexivity.
Qed.

Lemma overflow_lf ocb buf ch h :
  ch <> traits_type.eof ->
  traits_type.to_char_type ch = LF ->
  overflow {| callback_ := ocb; buffer_ := buf |} ch h
  = (ch, (flush_line {| callback_ := ocb; buffer_ := buf |} h).1,
         (flush_line {| callback_ := ocb; buffer_ := buf |} h).2).
Proof.
  intros Hne Hc. unfold overflow, traits_type.not_eof, traits_type.eq_int_type.
  apply Z.eqb_neq in Hne. rewrite Hne, Hc. cbn [char_eqb].
  change (char_eqb LF CR) with false. rewrite char_eqb_refl.
  now destruct (flush_line _ h).
Qed.

Lemma overflow_other ocb buf ch h :
  ch <> traits_type.eof ->
  traits_type.to_char_type ch <> CR ->
  traits_type.to_char_type ch <> LF ->
  overflow {| callback_ := ocb; buffer_ := buf |} ch h
  = (ch, {| callback_ := ocb;
            buffer_ := buf ++ [traits_type.to_char_type ch] |}, h).
Proof.
  intros Hne Hcr Hlf.
  unfold overflow, traits_type.not_eof, traits_type.eq_int_type.
  apply Z.eqb_neq in Hne. rewrite Hne.
  rewrite (char_eqb_neq _ _ Hcr), (char_eqb_neq _ _ Hlf). reflexivity.
Qed.

(** [sputc] by cases on the character written. *)
Lemma sputc_cases (c : char_type) ocb buf h :
  sputc c {| callback_ := ocb; buffer_ := buf |} h
  = if char_eqb c CR then ({| callback_ := ocb; buffer_ := buf |}, h)
    else if char_eqb c LF then flush_line {| callback_ := ocb; buffer_ := buf |} h
    else ({| callback_ := ocb; buffer_ := buf ++ [c] |}, h).
Proof.
  unfold sputc, overflow. rewrite to_int_type_not_eof, to_char_of_to_int.
  destruct (char_eqb c CR); [reflexivity|].
  destruct (char_eqb c LF); [|reflexivity].
  now destruct (flush_line _ h).
Qed.

Lemma feed_no_newline (text : cstring) : forall ocb buf h,
  ~ In LF text ->
  feed text {| callback_ := ocb; buffer_ := buf |} h
  = ({| callback_ := ocb; buffer_ := buf ++ without_cr text |}, h).
Proof.
  induction text as [|c text IH]; intros ocb buf h Hn; cbn [feed].
  - unfold without_cr. cbn. now rewrite app_nil_r.
  - rewrite sputc_cases. unfold without_cr.
    destruct (decide (c = CR)) as [->|Hcr].
    + rewrite char_eqb_refl. rewrite IH by (intros Hin; apply Hn; now right).
      rewrite filter_cons_False by (intros Hx; now apply Hx). reflexivity.
    + rewrite (char_eqb_neq _ _ Hcr).
      rewrite char_eqb_neq by (intros ->; apply Hn; now left).
      rewrite IH by (intros Hin; apply Hn; now right).
      rewrite filter_cons_True by assumption.
      now rewrite <- app_assoc.
Qed.

(** With an empty function object nothing is ever delivered and the buffer
    only grows. *)
Lemma run_null (cs : list (call)) : forall buf h,
  run cs {| callback_ := None; buffer_ := buf |} h
  = ({| callback_ := None; buffer_ := buf ++ concat (map appended cs) |}, h).
Proof.
  induction cs as [|c cs IH]; intros buf h; cbn [run map concat].
  - now rewrite app_nil_r.
  - destruct c as [ch|]; cbn [step appended].
    + unfold overflow.
      destruct (traits_type.eq_int_type ch traits_type.eof).
      { rewrite IH. reflexivity. }
      destruct (char_eqb (traits_type.to_char_type ch) CR).
      { rewrite IH. reflexivity. }
      destruct (char_eqb (traits_type.to_char_type ch) LF).
      { cbn [orb]. rewrite flush_line_null. rewrite IH. reflexivity. }
      cbn [orb]. rewrite IH. cbn [callback_ buffer_].
      now rewrite <- app_assoc.
    + unfold sync. rewrite flush_line_null. rewrite IH. reflexivity.
Qed.

End LineFacts.

Lemma feed_recorded_clean (text : cstring) : forall buf seen,
  LineBufferStreambuf.clean buf ->
  Forall (fun line => line <> [] /\ LineBufferStreambuf.clean line) seen ->
  LineBufferStreambuf.clean (LineBufferStreambuf.buffer_
           (LineBufferStreambuf.feed text
              {| LineBufferStreambuf.callback_ := Some LineBufferStreambuf.record_line;
                 LineBufferStreambuf.buffer_ := buf |} seen).1)
  /\ Forall (fun line => line <> [] /\ LineBufferStreambuf.clean line)
       (LineBufferStreambuf.feed text
          {| LineBufferStreambuf.callback_ := Some LineBufferStreambuf.record_line;
             LineBufferStreambuf.buffer_ := buf |} seen).2
  /\ LineBufferStreambuf.callback_
       (LineBufferStreambuf.feed text
          {| LineBufferStreambuf.callback_ := Some LineBufferStreambuf.record_line;
             LineBufferStreambuf.buffer_ := buf |} seen).1
     = Some LineBufferStreambuf.record_line.
Proof.
  induction text as [|c text IH]; intros buf seen Hb Hs;
    cbn [LineBufferStreambuf.feed].
  - cbn. auto.
  - rewrite sputc_cases.
    destruct (char_eqb c CR) eqn:Hcr; [now apply IH|].
    destruct (char_eqb c LF) eqn:Hlf.
    + destruct buf as [|b buf].
      * rewrite flush_line_empty. now apply IH.
      * rewrite flush_line_some by discriminate. apply IH.
        { constructor. }
        { unfold LineBufferStreambuf.record_line. apply Forall_app. split; [assumption|].
          constructor; [|constructor]. split; [discriminate|assumption]. }
    + apply IH; [|assumption].
      unfold LineBufferStreambuf.clean. apply Forall_app. split; [assumption|].
      constructor; [|constructor]. split.
      * intros ->. now rewrite char_eqb_refl in Hcr.
      * intros ->. now rewrite char_eqb_refl in Hlf.
Qed.

(** C3 (line splitting).  Written one character at a time to a fresh
    adapter with a callback, ["abc\r\ndef\n"] calls the callback twice, with
    ["abc"] and then ["def"], and ["\n\n"] does not call it.  For every
    state and every character: a carriage return changes neither the buffer
    nor the host; a newline calls the callback, with the buffer as payload,
    and then empties the buffer when the buffer is not empty, and does
    nothing when it is empty; any other character is appended to the
    buffer.  Every line a recording host receives is free of carriage
    returns and newlines and is not empty. *)
Theorem line_splitting {Host : Type} (cb : LineBufferStreambuf.LineCallback Host)
    (ocb : option (LineBufferStreambuf.LineCallback Host)) (buf : cstring)
    (ch : int_type) (h : Host) (text : cstring) :
  LineBufferStreambuf.feed (str "abc" ++ [CR; LF] ++ str "def" ++ [LF])
    (LineBufferStreambuf.create (Some cb)) h
  = (LineBufferStreambuf.create (Some cb), cb (str "def") (cb (str "abc") h))
  /\ LineBufferStreambuf.feed (str "abc" ++ [CR; LF] ++ str "def" ++ [LF])
       (LineBufferStreambuf.create (Some LineBufferStreambuf.record_line)) []
     = (LineBufferStreambuf.create (Some LineBufferStreambuf.record_line),
        [str "abc"; str "def"])
  /\ LineBufferStreambuf.feed [LF; LF] (LineBufferStreambuf.create (Some cb)) h
     = (LineBufferStreambuf.create (Some cb), h)
  /\ LineBufferStreambuf.feed [LF; LF]
       (LineBufferStreambuf.create (Some LineBufferStreambuf.record_line)) []
     = (LineBufferStreambuf.create (Some LineBufferStreambuf.record_line), [])
  /\ (ch <> traits_type.eof -> traits_type.to_char_type ch = CR ->
      LineBufferStreambuf.overflow
        {| LineBufferStreambuf.callback_ := ocb; LineBufferStreambuf.buffer_ := buf |} ch h
      = (ch, {| LineBufferStreambuf.callback_ := ocb;
                LineBufferStreambuf.buffer_ := buf |}, h))
  /\ (ch <> traits_type.eof -> traits_type.to_char_type ch = LF -> buf <> [] ->
      LineBufferStreambuf.overflow
        {| LineBufferStreambuf.callback_ := Some cb; LineBufferStreambuf.buffer_ := buf |} ch h
      = (ch, {| LineBufferStreambuf.callback_ := Some cb;
                LineBufferStreambuf.buffer_ := [] |}, cb buf h))
  /\ (ch <> traits_type.eof -> traits_type.to_char_type ch = LF ->
      LineBufferStreambuf.overflow
        {| LineBufferStreambuf.callback_ := ocb; LineBufferStreambuf.buffer_ := [] |} ch h
      = (ch, {| LineBufferStreambuf.callback_ := ocb;
                LineBufferStreambuf.buffer_ := [] |}, h))
  /\ (ch <> traits_type.eof -> traits_type.to_char_type ch <> CR ->
      traits_type.to_char_type ch <> LF ->
      LineBufferStreambuf.overflow
        {| LineBufferStreambuf.callback_ := ocb; LineBufferStreambuf.buffer_ := buf |} ch h
      = (ch, {| LineBufferStreambuf.callback_ := ocb;
                LineBufferStreambuf.buffer_ := buf ++ [traits_type.to_char_type ch] |}, h))
  /\ Forall (fun line => line <> [] /\ LineBufferStreambuf.clean line)
       (LineBufferStreambuf.feed text
          (LineBufferStreambuf.create (Some LineBufferStreambuf.record_line)) []).2.
Proof.
  split; [reflexivity|]. split; [reflexivity|].
  split; [reflexivity|]. split; [reflexivity|].
  split; [apply overflow_cr|].
  split.
  { intros Hne Hc Hb. rewrite overflow_lf by assumption.
    now rewrite flush_line_some. }
  split.
  { intros Hne Hc. rewrite overflow_lf by assumption.
    now rewrite flush_line_empty. }
  split; [apply overflow_other|].
  apply (feed_recorded_clean text [] []); constructor.
Qed.

(** C5 (explicit flush).  With a callback in place: [sync] on a buffer that
    is not empty calls the callback once, with the buffer as payload,
    empties the buffer and returns [0]; [sync] on an empty buffer calls
    nothing, changes nothing and returns [0]; so after writing, in any
    state, a text with no newline in it, [sync] delivers in one call what
    was pending followed by that text without its carriage returns, when
    this is not empty; and ["tail"] written to a fresh adapter and followed
    by [sync] delivers the one line ["tail"]. *)
Theorem sync_flushes_partial_line {Host : Type}
    (cb : LineBufferStreambuf.LineCallback Host)
    (ocb : option (LineBufferStreambuf.LineCallback Host))
    (buf text : cstring) (h : Host) :
  (buf <> [] ->
   LineBufferStreambuf.sync
     {| LineBufferStreambuf.callback_ := Some cb; LineBufferStreambuf.buffer_ := buf |} h
   = (0, {| LineBufferStreambuf.callback_ := Some cb;
            LineBufferStreambuf.buffer_ := [] |}, cb buf h))
  /\ LineBufferStreambuf.sync
       {| LineBufferStreambuf.callback_ := ocb; LineBufferStreambuf.buffer_ := [] |} h
     = (0, {| LineBufferStreambuf.callback_ := ocb;
              LineBufferStreambuf.buffer_ := [] |}, h)
  /\ (LineBufferStreambuf.sync
        {| LineBufferStreambuf.callback_ := ocb; LineBufferStreambuf.buffer_ := buf |} h).1.1
     = 0
  /\ (~ In LF text -> buf ++ LineBufferStreambuf.without_cr text <> [] ->
      let '(sb1, h1) :=
        LineBufferStreambuf.feed text
          {| LineBufferStreambuf.callback_ := Some cb;
             LineBufferStreambuf.buffer_ := buf |} h in
      sb1 = {| LineBufferStreambuf.callback_ := Some cb;
               LineBufferStreambuf.buffer_ :=
                 buf ++ LineBufferStreambuf.without_cr text |}
      /\ h1 = h
      /\ LineBufferStreambuf.sync sb1 h1
         = (0, LineBufferStreambuf.create (Some cb),
            cb (buf ++ LineBufferStreambuf.without_cr text) h))
  /\ (let '(sb1, seen1) :=
        LineBufferStreambuf.feed (str "tail")
          (LineBufferStreambuf.create (Some LineBufferStreambuf.record_line)) [] in
      LineBufferStreambuf.sync sb1 seen1
      = (0, LineBufferStreambuf.create (Some LineBufferStreambuf.record_line),
         [str "tail"])).
Proof.
  split.
  { intros Hb. unfold LineBufferStreambuf.sync. now rewrite flush_line_some. }
  split.
  { unfold LineBufferStreambuf.sync. now rewrite flush_line_empty. }
  split.
  { unfold LineBufferStreambuf.sync. now destruct (LineBufferStreambuf.flush_line _ h). }
  split; [|reflexivity].
  intros Hn Hk. unfold LineBufferStreambuf.create.
  rewrite (feed_no_newline text (Some cb) buf h Hn).
  split; [reflexivity|]. split; [reflexivity|].
  unfold LineBufferStreambuf.sync. now rewrite flush_line_some.
Qed.

(** C9 (empty callback).  An adapter whose callback is the empty function
    object never calls anything: [flush_line] changes neither the buffer nor
    the host, and after any sequence of [overflow] and [sync] calls the host
    is as it was, the callback is still empty, and the buffer is the buffer
    at the start followed by every character written that is neither the
    end-of-file value nor a carriage return nor a newline; neither a newline
    nor [sync] takes anything out of it. *)
Theorem null_callback_never_delivers {Host : Type} (buf : cstring)
    (cs : list LineBufferStreambuf.call) (h : Host) :
  LineBufferStreambuf.create (Host := Host) None
  = {| LineBufferStreambuf.callback_ := None; LineBufferStreambuf.buffer_ := [] |}
  /\ LineBufferStreambuf.flush_line
       {| LineBufferStreambuf.callback_ := None; LineBufferStreambuf.buffer_ := buf |} h
     = ({| LineBufferStreambuf.callback_ := None;
           LineBufferStreambuf.buffer_ := buf |}, h)
  /\ LineBufferStreambuf.sputc LF
       {| LineBufferStreambuf.callback_ := None; LineBufferStreambuf.buffer_ := buf |} h
     = ({| LineBufferStreambuf.callback_ := None;
           LineBufferStreambuf.buffer_ := buf |}, h)
  /\ LineBufferStreambuf.sync
       {| LineBufferStreambuf.callback_ := None; LineBufferStreambuf.buffer_ := buf |} h
     = (0, {| LineBufferStreambuf.callback_ := None;
              LineBufferStreambuf.buffer_ := buf |}, h)
  /\ LineBufferStreambuf.run cs
       {| LineBufferStreambuf.callback_ := None; LineBufferStreambuf.buffer_ := buf |} h
     = ({| LineBufferStreambuf.callback_ := None;
           LineBufferStreambuf.buffer_ :=
             buf ++ concat (map LineBufferStreambuf.appended cs) |}, h).
Proof.
  split; [reflexivity|]. split; [reflexivity|].
  split; [reflexivity|]. split; [reflexivity|].
  apply run_null.
Qed.

(** With the empty callback a whole line and a flush leave the text in the
    buffer. *)
Example null_callback_keeps_text :
  LineBufferStreambuf.run
    (map LineBufferStreambuf.Overflow [105; 100; 13; 10] ++ [LineBufferStreambuf.Sync]
     ++ map LineBufferStreambuf.Overflow [traits_type.eof; 33; 10])
    (LineBufferStreambuf.create None) tt
  = ({| LineBufferStreambuf.callback_ := None;
        LineBufferStreambuf.buffer_ := str "id!" |}, tt).
Proof. reflexivity. Qed.

(** ** The redirection scope and the entry point *)

Section RunFacts.

Import EmbeddedUCI.

Context {Host : Type}.

Implicit Types (w : World Host) (r : StreamRedirector).

Lemma ctor_world (in_ out : ios) w :
  (StreamRedirector_ctor in_ out w).2
  = {| cin := {| rdbuf_ := rdbuf in_ |}; cout := {| rdbuf_ := rdbuf out |};
       heap := heap w; host := host w |}.
Proof. reflexivity. Qed.

Lemma ctor_saved (in_ out : ios) w :
  (StreamRedirector_ctor in_ out w).1
  = {| oldInBuf_ := rdbuf (cin w); oldOutBuf_ := rdbuf (cout w) |}.
Proof. reflexivity. Qed.

Lemma dtor_world r w :
  StreamRedirector_dtor r w
  = {| cin := {| rdbuf_ := oldInBuf_ r |}; cout := {| rdbuf_ := oldOutBuf_ r |};
       heap := heap w; host := host w |}.
Proof. reflexivity. Qed.

(** The function is the constructor, the banner, the engine part and, when
    the engine part comes back, the destructor. *)
Lemma RunStockfishUCI_unfold (engine_info : cstring)
    (engine_run : World Host -> World Host * completion) (in_ out : ios) w :
  RunStockfishUCI engine_info engine_run in_ out w
  = let '(w3, c) := engine_run (at_engine_start engine_info in_ out w) in
    match c with
    | Hangs => (w3, Hangs)
    | _ => (StreamRedirector_dtor (StreamRedirector_ctor in_ out w).1 w3, c)
    end.
Proof. reflexivity. Qed.

Lemma without_cr_clean (text : cstring) :
  LineBufferStreambuf.clean text -> LineBufferStreambuf.without_cr text = text.
Proof.
  unfold LineBufferStreambuf.clean, LineBufferStreambuf.without_cr.
  induction 1 as [|c text [Hcr _] _ IH]; [reflexivity|].
  rewrite filter_cons_True by assumption. now rewrite IH.
Qed.

Lemma clean_no_newline (text : cstring) :
  LineBufferStreambuf.clean text -> ~ In LF text.
Proof.
  unfold LineBufferStreambuf.clean. intros Hc Hin.
  rewrite Forall_forall in Hc. apply list_elem_of_In in Hin.
  destruct (Hc LF Hin) as [_ Hlf]. now apply Hlf.
Qed.

(** When [out] is bound to a line buffer with a callback and nothing
    pending, the engine part starts in the world in which the callback has
    been called once more, with the banner, and the buffer is empty again. *)
Lemma banner_before_engine (engine_info : cstring) (in_ out : ios) w
    (cb : LineBufferStreambuf.LineCallback Host) :
  heap w !! rdbuf out
  = Some (LineBuf {| LineBufferStreambuf.callback_ := Some cb;
                     LineBufferStreambuf.buffer_ := [] |}) ->
  engine_info <> [] ->
  LineBufferStreambuf.clean engine_info ->
  at_engine_start engine_info in_ out w
  = {| cin := {| rdbuf_ := rdbuf in_ |}; cout := {| rdbuf_ := rdbuf out |};
       heap := heap w; host := cb engine_info (host w) |}.
Proof.
  intros Hh Hne Hcl. unfold at_engine_start. rewrite ctor_world.
  unfold cout_write. cbn [cout heap host rdbuf rdbuf_]. rewrite Hh.
  rewrite (feed_no_newline engine_info (Some cb) [] (host w))
    by (now apply clean_no_newline).
  rewrite (without_cr_clean engine_info Hcl). cbn [app].
  unfold cout_endl, with_line_buf. cbn [cout heap host rdbuf rdbuf_].
  rewrite lookup_insert_eq.
  rewrite sputc_cases. change (char_eqb LF CR) with false.
  rewrite char_eqb_refl. rewrite (flush_line_some cb engine_info (host w) Hne).
  unfold LineBufferStreambuf.sync. rewrite flush_line_empty.
  f_equal. rewrite insert_insert_eq. now apply insert_id.
Qed.

End RunFacts.

(** C7 (the redirection is undone).  Whatever the engine part does to the
    process state, the bindings of [std::cin] and [std::cout] included, when
    [RunStockfishUCI] is left, by a return or by an exception, both streams
    are bound to the buffers they were bound to when it was entered; while
    the engine part runs they are bound to the buffers of [in] and [out];
    and the destructor run right after the constructor gives back the state
    before the constructor. *)
Theorem redirector_restores {Host : Type} (engine_info : cstring)
    (engine_run : EmbeddedUCI.World Host -> EmbeddedUCI.World Host * EmbeddedUCI.completion)
    (in_ out : EmbeddedUCI.ios) (w w' : EmbeddedUCI.World Host)
    (c : EmbeddedUCI.completion) :
  EmbeddedUCI.RunStockfishUCI engine_info engine_run in_ out w = (w', c) ->
  c <> EmbeddedUCI.Hangs ->
  EmbeddedUCI.cin w' = EmbeddedUCI.cin w
  /\ EmbeddedUCI.cout w' = EmbeddedUCI.cout w
  /\ EmbeddedUCI.rdbuf
       (EmbeddedUCI.cin (EmbeddedUCI.StreamRedirector_ctor in_ out w).2)
     = EmbeddedUCI.rdbuf in_
  /\ EmbeddedUCI.rdbuf
       (EmbeddedUCI.cout (EmbeddedUCI.StreamRedirector_ctor in_ out w).2)
     = EmbeddedUCI.rdbuf out
  /\ EmbeddedUCI.StreamRedirector_dtor
       (EmbeddedUCI.StreamRedirector_ctor in_ out w).1
       (EmbeddedUCI.StreamRedirector_ctor in_ out w).2
     = w.
Proof.
  intros Hrun Hc. rewrite RunStockfishUCI_unfold in Hrun.
  destruct (engine_run _) as [w3 c3].
  assert (Hw : w' = EmbeddedUCI.StreamRedirector_dtor
                      (EmbeddedUCI.StreamRedirector_ctor in_ out w).1 w3).
  { destruct c3; injection Hrun as <- <-; [reflexivity|reflexivity|congruence]. }
  subst w'. rewrite !dtor_world, ctor_saved, ctor_world.
  destruct w as [[ci] [co] hp hs]. cbn. repeat split.
Qed.

Lemma redirector_restores_witness :
  let w := {| EmbeddedUCI.cin := {| EmbeddedUCI.rdbuf_ := 1%N |};
              EmbeddedUCI.cout := {| EmbeddedUCI.rdbuf_ := 2%N |};
              EmbeddedUCI.heap := ∅; EmbeddedUCI.host := tt |} in
  let engine := fun w0 : EmbeddedUCI.World unit =>
    (EmbeddedUCI.with_cin {| EmbeddedUCI.rdbuf_ := 9%N |} w0, EmbeddedUCI.Throws) in
  let in_ := {| EmbeddedUCI.rdbuf_ := 3%N |} in
  let out := {| EmbeddedUCI.rdbuf_ := 4%N |} in
  EmbeddedUCI.RunStockfishUCI (str "Stockfish") engine in_ out w
  = (w, EmbeddedUCI.Throws)
  /\ EmbeddedUCI.Throws <> EmbeddedUCI.Hangs
  /\ EmbeddedUCI.cin (engine (EmbeddedUCI.at_engine_start (str "Stockfish") in_ out w)).1
     = {| EmbeddedUCI.rdbuf_ := 9%N |}
  /\ (EmbeddedUCI.cin w = EmbeddedUCI.cin w
      /\ EmbeddedUCI.cout w = EmbeddedUCI.cout w
      /\ EmbeddedUCI.rdbuf
           (EmbeddedUCI.cin (EmbeddedUCI.StreamRedirector_ctor in_ out w).2)
         = EmbeddedUCI.rdbuf in_
      /\ EmbeddedUCI.rdbuf
           (EmbeddedUCI.cout (EmbeddedUCI.StreamRedirector_ctor in_ out w).2)
         = EmbeddedUCI.rdbuf out
      /\ EmbeddedUCI.StreamRedirector_dtor
           (EmbeddedUCI.StreamRedirector_ctor in_ out w).1
           (EmbeddedUCI.StreamRedirector_ctor in_ out w).2
         = w).
Proof.
  intros w engine in_ out.
  split; [reflexivity|]. split; [discriminate|]. split; [reflexivity|].
  exact (redirector_restores (Host := unit) (str "Stockfish") engine in_ out
           w w EmbeddedUCI.Throws eq_refl ltac:(discriminate)).
Defined.

(** An engine part that never comes back leaves the function's frame alive:
    the streams stay bound to the buffers of [in] and [out]. *)
Example hung_engine_stays_redirected :
  let w := {| EmbeddedUCI.cin := {| EmbeddedUCI.rdbuf_ := 1%N |};
              EmbeddedUCI.cout := {| EmbeddedUCI.rdbuf_ := 2%N |};
              EmbeddedUCI.heap := ∅; EmbeddedUCI.host := tt |} in
  EmbeddedUCI.RunStockfishUCI (str "Stockfish")
    (fun w0 : EmbeddedUCI.World unit => (w0, EmbeddedUCI.Hangs))
    {| EmbeddedUCI.rdbuf_ := 3%N |} {| EmbeddedUCI.rdbuf_ := 4%N |} w
  = ({| EmbeddedUCI.cin := {| EmbeddedUCI.rdbuf_ := 3%N |};
        EmbeddedUCI.cout := {| EmbeddedUCI.rdbuf_ := 4%N |};
        EmbeddedUCI.heap := ∅; EmbeddedUCI.host := tt |}, EmbeddedUCI.Hangs).
Proof. reflexivity. Qed.

(** C10, as stated, fails for a run whose output buffer has text pending:
    the banner is written behind that text, and the first line the run
    delivers is the pending text followed by the banner. *)
Lemma banner_not_first_with_pending :
  let w := {| EmbeddedUCI.cin := {| EmbeddedUCI.rdbuf_ := 1%N |};
              EmbeddedUCI.cout := {| EmbeddedUCI.rdbuf_ := 2%N |};
              EmbeddedUCI.heap :=
                {[ 4%N := EmbeddedUCI.LineBuf
                            {| LineBufferStreambuf.callback_ :=
                                 Some LineBufferStreambuf.record_line;
                               LineBufferStreambuf.buffer_ := str "pre" |} ]};
              EmbeddedUCI.host := [] |} in
  EmbeddedUCI.host
    (EmbeddedUCI.RunStockfishUCI (str "Stockfish")
       (fun w0 => (w0, EmbeddedUCI.Returns))
       {| EmbeddedUCI.rdbuf_ := 3%N |} {| EmbeddedUCI.rdbuf_ := 4%N |} w).1
  = [str "preStockfish"]
  /\ ~ (forall (engine_info : cstring)
          (engine_run : EmbeddedUCI.World (list cstring)
                        -> EmbeddedUCI.World (list cstring) * EmbeddedUCI.completion)
          (in_ out : EmbeddedUCI.ios) (w : EmbeddedUCI.World (list cstring))
          (sb : LineBufferStreambuf.t (list cstring)),
          EmbeddedUCI.heap w !! EmbeddedUCI.rdbuf out = Some (EmbeddedUCI.LineBuf sb) ->
          LineBufferStreambuf.callback_ sb = Some LineBufferStreambuf.record_line ->
          engine_info <> [] ->
          LineBufferStreambuf.clean engine_info ->
          EmbeddedUCI.host (EmbeddedUCI.at_engine_start engine_info in_ out w)
          `prefix_of`
          EmbeddedUCI.host
            (engine_run (EmbeddedUCI.at_engine_start engine_info in_ out w)).1 ->
          exists more,
            EmbeddedUCI.host
              (EmbeddedUCI.RunStockfishUCI engine_info engine_run in_ out w).1
            = EmbeddedUCI.host w ++ engine_info :: more).
Proof.
  intros w. split; [vm_compute; reflexivity|].
  intros H.
  destruct (H (str "Stockfish") (fun w0 => (w0, EmbeddedUCI.Returns))
              {| EmbeddedUCI.rdbuf_ := 3%N |} {| EmbeddedUCI.rdbuf_ := 4%N |} w
              {| LineBufferStreambuf.callback_ := Some LineBufferStreambuf.record_line;
                 LineBufferStreambuf.buffer_ := str "pre" |})
    as [more Hmore].
  - vm_compute. reflexivity.
  - reflexivity.
  - discriminate.
  - unfold LineBufferStreambuf.clean. apply (bool_decide_unpack _).
    vm_compute. exact I.
  - exists []. now rewrite app_nil_r.
  - vm_compute in Hmore. discriminate Hmore.
Qed.

(** C10, amended (the banner comes first).  [RunStockfishUCI] writes
    [engine_info()], a newline and a flush to [std::cout] after the
    constructor of the redirector and before the engine part runs.  When
    [out] is bound to a line buffer with nothing pending whose callback
    records the lines, and the identification string is one non-empty
    line, the engine part starts in a state in which exactly one line has
    been delivered by this run, the banner; so if the engine part only adds
    to the record, the record at the end is the record at the start, the
    banner, and then whatever the engine delivered, for every state of the
    process and so for every content of the command queue. *)
Theorem banner_is_first_line (engine_info : cstring)
    (engine_run : EmbeddedUCI.World (list cstring)
                  -> EmbeddedUCI.World (list cstring) * EmbeddedUCI.completion)
    (in_ out : EmbeddedUCI.ios) (w : EmbeddedUCI.World (list cstring)) :
  EmbeddedUCI.heap w !! EmbeddedUCI.rdbuf out
  = Some (EmbeddedUCI.LineBuf
            (LineBufferStreambuf.create (Some LineBufferStreambuf.record_line))) ->
  engine_info <> [] ->
  LineBufferStreambuf.clean engine_info ->
  EmbeddedUCI.host (EmbeddedUCI.at_engine_start engine_info in_ out w)
  `prefix_of`
  EmbeddedUCI.host (engine_run (EmbeddedUCI.at_engine_start engine_info in_ out w)).1 ->
  EmbeddedUCI.at_engine_start engine_info in_ out w
  = EmbeddedUCI.cout_endl
      (EmbeddedUCI.cout_write engine_info
         (EmbeddedUCI.StreamRedirector_ctor in_ out w).2)
  /\ EmbeddedUCI.RunStockfishUCI engine_info engine_run in_ out w
     = (let '(w3, c) :=
          engine_run (EmbeddedUCI.at_engine_start engine_info in_ out w) in
        match c with
        | EmbeddedUCI.Hangs => (w3, EmbeddedUCI.Hangs)
        | _ => (EmbeddedUCI.StreamRedirector_dtor
                  (EmbeddedUCI.StreamRedirector_ctor in_ out w).1 w3, c)
        end)
  /\ EmbeddedUCI.host (EmbeddedUCI.at_engine_start engine_info in_ out w)
     = EmbeddedUCI.host w ++ [engine_info]
  /\ exists more,
       EmbeddedUCI.host
         (EmbeddedUCI.RunStockfishUCI engine_info engine_run in_ out w).1
       = EmbeddedUCI.host w ++ engine_info :: more.
Proof.
  intros Hh Hne Hcl Hext.
  split; [reflexivity|]. split; [apply RunStockfishUCI_unfold|].
  rewrite RunStockfishUCI_unfold.
  rewrite (banner_before_engine engine_info in_ out w
             LineBufferStreambuf.record_line Hh Hne Hcl) in *.
  cbn [EmbeddedUCI.host] in *. unfold LineBufferStreambuf.record_line in *.
  split; [reflexivity|].
  destruct (engine_run _) as [w3 c3]. cbn [fst] in Hext.
  destruct Hext as [more Hmore]. exists more.
  rewrite <- app_assoc in Hmore. cbn [app] in Hmore.
  destruct c3; cbn [fst]; rewrite ?dtor_world; cbn [EmbeddedUCI.host]; exact Hmore.
Qed.

Lemma banner_is_first_line_witness :
  let banner := str "Stockfish 17 by the Stockfish developers (see AUTHORS file)" in
  let w := {| EmbeddedUCI.cin := {| EmbeddedUCI.rdbuf_ := 1%N |};
              EmbeddedUCI.cout := {| EmbeddedUCI.rdbuf_ := 2%N |};
              EmbeddedUCI.heap :=
                {[ 3%N := EmbeddedUCI.CommandBuf CommandStreambuf.create
                            {| ThreadSafeQueue.queue_ := [str "uci"; str "quit"];
                               ThreadSafeQueue.closed_ := true |};
                   4%N := EmbeddedUCI.LineBuf
                            (LineBufferStreambuf.create
                               (Some LineBufferStreambuf.record_line)) ]};
              EmbeddedUCI.host := [] |} in
  let engine := fun w0 : EmbeddedUCI.World (list cstring) =>
    (EmbeddedUCI.cout_endl (EmbeddedUCI.cout_write (str "uciok") w0),
     EmbeddedUCI.Returns) in
  EmbeddedUCI.host
    (EmbeddedUCI.RunStockfishUCI banner engine
       {| EmbeddedUCI.rdbuf_ := 3%N |} {| EmbeddedUCI.rdbuf_ := 4%N |} w).1
  = [banner; str "uciok"]
  /\ exists more,
       EmbeddedUCI.host
         (EmbeddedUCI.RunStockfishUCI banner engine
            {| EmbeddedUCI.rdbuf_ := 3%N |} {| EmbeddedUCI.rdbuf_ := 4%N |} w).1
       = [] ++ banner :: more.
Proof.
  intros banner w engine. split; [vm_compute; reflexivity|].
  refine (proj2 (proj2 (proj2
            (banner_is_first_line banner engine
               {| EmbeddedUCI.rdbuf_ := 3%N |} {| EmbeddedUCI.rdbuf_ := 4%N |} w
               _ _ _ _)))).
  - vm_compute. reflexivity.
  - discriminate.
  - unfold LineBufferStreambuf.clean. apply (bool_decide_unpack _).
    vm_compute. exact I.
  - exists [str "uciok"]. vm_compute. reflexivity.
Defined.

(** * Further properties *)

(** ** The queue: [close] and [closed] *)

Section QueueMoreFacts.

Import ThreadSafeQueue.

Context {T : Type}.

Implicit Types (q : ThreadSafeQueue.t T) (cs : list (call T)) (xs : list T).

Lemma run_cons c cs q :
  run (c :: cs) q
  = (handed_out (step c q).1 ++ (run cs (step c q).2).1, (run cs (step c q).2).2).
Proof.
  cbn [run]. destruct (step c q) as [r q1]. cbn [fst snd].
  destruct (run cs q1) as [outs q2]. reflexivity.
Qed.

Lemma step_pop_items q :
  handed_out (step Pop q).1 ++ queue_ (step Pop q).2 = queue_ q
  /\ closed_ (step Pop q).2 = closed_ q.
Proof.
  destruct q as [[|x rest] [|]]; repeat split.
Qed.

Lemma run_any cs : forall q,
  (run cs q).1 ++ queue_ (run cs q).2 = queue_ q ++ accepted cs (closed_ q)
  /\ closed_ (run cs q).2 = closed_ q || has_close cs.
Proof.
  induction cs as [|c cs IH]; intros q.
  - cbn. rewrite app_nil_r, orb_false_r. auto.
  - rewrite run_cons. cbn [fst snd].
    destruct (IH (step c q).2) as [IH1 IH2]. rewrite IH2. clear IH2.
    rewrite <- app_assoc, IH1. clear IH1 IH.
    destruct c as [v| |].
    + cbn [step fst snd handed_out accepted has_close app].
      destruct (closed_ q) eqn:Hc.
      * rewrite (push_closed q v Hc). now rewrite Hc.
      * rewrite (push_open q v Hc). cbn [queue_ closed_].
        now rewrite <- app_assoc.
    + cbn [accepted has_close].
      destruct (step_pop_items q) as [H1 H2]. rewrite H2.
      now rewrite app_assoc, H1.
    + cbn [step fst snd handed_out accepted has_close close queue_ closed_ app].
      now rewrite orb_true_r.
Qed.

Lemma pop_n_false k : forall q,
  closed_ q = true -> queue_ q = [] ->
  pop_n k q = (repeat PopFalse k, q).
Proof.
  induction k as [|k IH]; intros q Hc Hq; cbn [pop_n repeat]; [reflexivity|].
  rewrite (pop_empty q Hq), Hc. now rewrite IH.
Qed.

Lemma pop_n_app xs k : forall b,
  pop_n (length xs + k) {| queue_ := xs; closed_ := b |}
  = (map PopTrue xs ++ (pop_n k {| queue_ := []; closed_ := b |}).1,
     (pop_n k {| queue_ := []; closed_ := b |}).2).
Proof.
  induction xs as [|x xs IH]; intros b; cbn [length Nat.add map app].
  - now destruct (pop_n k _).
  - cbn [pop_n].
    rewrite (pop_front {| queue_ := x :: xs; closed_ := b |} x xs eq_refl).
    cbn [closed_]. now rewrite IH.
Qed.

End QueueMoreFacts.

(** X1 (what a queue keeps).  For every sequence of [push], [pop] and
    [close] calls on every queue: the items the pops returned, followed by
    the items still queued, are the items queued at the start followed by
    the values pushed while the queue was open, in push order; and the
    queue is closed at the end exactly when it was closed at the start or
    [close] was called, so the flag never goes back. *)
Theorem queue_run_conserves {T : Type} (cs : list (ThreadSafeQueue.call T))
    (q : ThreadSafeQueue.t T) :
  (ThreadSafeQueue.run cs q).1 ++ ThreadSafeQueue.queue_ (ThreadSafeQueue.run cs q).2
  = ThreadSafeQueue.queue_ q
    ++ ThreadSafeQueue.accepted cs (ThreadSafeQueue.closed_ q)
  /\ ThreadSafeQueue.closed (ThreadSafeQueue.run cs q).2
     = ThreadSafeQueue.closed q || ThreadSafeQueue.has_close cs.
Proof. apply run_any. Qed.

(** X2 (draining a closed queue).  After [close()], as many pops as there
    are items return the items in queue order, and every further [pop]
    returns [false]; [close()] itself keeps the items, and calling it again
    changes nothing. *)
Theorem close_then_drain {T : Type} (q : ThreadSafeQueue.t T) (k : nat) :
  ThreadSafeQueue.pop_n (length (ThreadSafeQueue.queue_ q) + k)
    (ThreadSafeQueue.close q)
  = (map ThreadSafeQueue.PopTrue (ThreadSafeQueue.queue_ q)
     ++ repeat ThreadSafeQueue.PopFalse k,
     {| ThreadSafeQueue.queue_ := []; ThreadSafeQueue.closed_ := true |})
  /\ ThreadSafeQueue.queue_ (ThreadSafeQueue.close q) = ThreadSafeQueue.queue_ q
  /\ ThreadSafeQueue.closed (ThreadSafeQueue.close q) = true
  /\ ThreadSafeQueue.close (ThreadSafeQueue.close q) = ThreadSafeQueue.close q.
Proof.
  split; [|repeat split].
  unfold ThreadSafeQueue.close at 1.
  rewrite pop_n_app. now rewrite pop_n_false.
Qed.

(** X3 (a waiting [pop]).  [pop] stays in its wait exactly when the queue
    is open and empty, and then changes nothing; on such a queue a [push]
    lets the next [pop] return the pushed value, and a [close] lets it
    return [false]. *)
Theorem waiting_pop_released {T : Type} (q : ThreadSafeQueue.t T) (x : T) :
  ((ThreadSafeQueue.pop q).1 = ThreadSafeQueue.PopWaits
   <-> ThreadSafeQueue.closed_ q = false /\ ThreadSafeQueue.queue_ q = [])
  /\ ((ThreadSafeQueue.pop q).1 = ThreadSafeQueue.PopWaits ->
      (ThreadSafeQueue.pop q).2 = q
      /\ ThreadSafeQueue.pop (ThreadSafeQueue.push x q) = (ThreadSafeQueue.PopTrue x, q)
      /\ ThreadSafeQueue.pop (ThreadSafeQueue.close q)
         = (ThreadSafeQueue.PopFalse, ThreadSafeQueue.close q)).
Proof.
  assert (Hiff : (ThreadSafeQueue.pop q).1 = ThreadSafeQueue.PopWaits
                 <-> ThreadSafeQueue.closed_ q = false
                     /\ ThreadSafeQueue.queue_ q = []).
  { destruct (ThreadSafeQueue.queue_ q) as [|y rest] eqn:Hq.
    - rewrite (pop_empty q Hq). cbn.
      destruct (ThreadSafeQueue.closed_ q); split; try auto; try discriminate.
      intros [? _]. discriminate.
    - rewrite (pop_front q y rest Hq). cbn. split; [discriminate|].
      intros [_ ?]. discriminate. }
  split; [exact Hiff|].
  intros Hw. apply Hiff in Hw. destruct Hw as [Hc Hq].
  destruct q as [items flag]. cbn in Hc, Hq. subst. repeat split.
Qed.

(** ** The input adapter: reading command after command *)

Section CommandMoreFacts.

Import CommandStreambuf.

Implicit Types (sb : CommandStreambuf.t) (q : ThreadSafeQueue.t cstring)
  (cmd cur : cstring) (cmds rest : list cstring).

Lemma read_n_app a : forall b sb q cs1 sb1 q1,
  read_n a sb q = Ok (cs1, sb1, q1) ->
  read_n (a + b) sb q
  = match read_n b sb1 q1 with
    | Ok (cs2, sb2, q2) => Ok (cs1 ++ cs2, sb2, q2)
    | Blocks => Blocks
    | Fault => Fault
    end.
Proof.
  induction a as [|a IH]; intros b sb q cs1 sb1 q1 Ha; cbn [read_n Nat.add] in *.
  - injection Ha as <- <- <-. destruct (read_n b sb q) as [[[cs2 sb2] q2]| |]; reflexivity.
  - destruct (sbumpc sb q) as [[[c sb0] q0]| |]; try discriminate.
    destruct (read_n a sb0 q0) as [[[cs0 sb0'] q0']| |] eqn:Hr; try discriminate.
    injection Ha as <- <- <-.
    rewrite (IH b sb0 q0 cs0 sb0' q0' Hr).
    destruct (read_n b sb0' q0') as [[[cs2 sb2] q2]| |]; reflexivity.
Qed.

Lemma underflow_eof sb q :
  (gptr_ sb <? egptr_ sb)%nat = false ->
  ThreadSafeQueue.closed_ q = true -> ThreadSafeQueue.queue_ q = [] ->
  underflow sb q = Ok (traits_type.eof, sb, q).
Proof.
  intros Hg Hc Hq. unfold underflow. rewrite Hg.
  rewrite (pop_empty q Hq), Hc. reflexivity.
Qed.

Lemma read_n_eof k sb q :
  (gptr_ sb <? egptr_ sb)%nat = false ->
  ThreadSafeQueue.closed_ q = true -> ThreadSafeQueue.queue_ q = [] ->
  read_n k sb q = Ok (repeat traits_type.eof k, sb, q).
Proof.
  intros Hg Hc Hq. induction k as [|k IH]; cbn [read_n repeat]; [reflexivity|].
  unfold sbumpc. rewrite (underflow_eof sb q Hg Hc Hq).
  change (traits_type.eq_int_type traits_type.eof traits_type.eof) with true.
  cbn iota. now rewrite IH.
Qed.

Lemma underflow_blocks_iff sb q :
  underflow sb q = Blocks
  <-> (gptr_ sb <? egptr_ sb)%nat = false
      /\ ThreadSafeQueue.closed_ q = false /\ ThreadSafeQueue.queue_ q = [].
Proof.
  unfold underflow, return_current.
  destruct (gptr_ sb <? egptr_ sb)%nat.
  - split.
    + destruct (deref sb (gptr_ sb)); discriminate.
    + intros [? _]. discriminate.
  - destruct (ThreadSafeQueue.queue_ q) as [|cmd rest] eqn:Hq.
    + rewrite (pop_empty q Hq).
      destruct (ThreadSafeQueue.closed_ q); split; try auto; try discriminate.
      intros (_ & ? & _). discriminate.
    + rewrite (pop_front q cmd rest Hq). split.
      * destruct (deref _ _); discriminate.
      * intros (_ & _ & ?). discriminate.
Qed.

Lemma read_n_blocks sb q :
  (gptr_ sb <? egptr_ sb)%nat = false ->
  ThreadSafeQueue.closed_ q = false -> ThreadSafeQueue.queue_ q = [] ->
  read_n 1 sb q = Blocks.
Proof.
  intros Hg Hc Hq. cbn [read_n]. unfold sbumpc.
  now rewrite (proj2 (underflow_blocks_iff sb q)).
Qed.

(** One command, then the rest of the queue. *)
Lemma read_one_command sb q cmd rest :
  (gptr_ sb <? egptr_ sb)%nat = false ->
  ThreadSafeQueue.queue_ q = cmd :: rest ->
  exists sb1,
    read_n (length (seen_by_reader cmd)) sb q
    = Ok (map traits_type.to_int_type (seen_by_reader cmd), sb1,
          {| ThreadSafeQueue.queue_ := rest;
             ThreadSafeQueue.closed_ := ThreadSafeQueue.closed_ q |})
    /\ (gptr_ sb1 <? egptr_ sb1)%nat = false.
Proof.
  intros Hg Hq. destruct cmd as [|c cmd].
  - exists (gbump1 (setg_current [])). split; [|reflexivity].
    cbn [seen_by_reader length read_n]. unfold sbumpc.
    rewrite (underflow_pops sb q [] rest Hg Hq). reflexivity.
  - eexists. split.
    + apply (read_n_command sb q (c :: cmd) rest Hg Hq). discriminate.
    + cbn [gptr_ egptr_]. apply Nat.ltb_irrefl.
Qed.

Lemma read_commands cmds : forall sb q rest,
  (gptr_ sb <? egptr_ sb)%nat = false ->
  ThreadSafeQueue.queue_ q = cmds ++ rest ->
  exists sb',
    read_n (length (concat (map seen_by_reader cmds))) sb q
    = Ok (map traits_type.to_int_type (concat (map seen_by_reader cmds)), sb',
          {| ThreadSafeQueue.queue_ := rest;
             ThreadSafeQueue.closed_ := ThreadSafeQueue.closed_ q |})
    /\ (gptr_ sb' <? egptr_ sb')%nat = false.
Proof.
  induction cmds as [|cmd cmds IH]; intros sb q rest Hg Hq.
  - exists sb. split; [|assumption]. cbn. destruct q; cbn in *. now subst.
  - cbn [map concat]. rewrite length_app, map_app.
    destruct (read_one_command sb q cmd (cmds ++ rest) Hg Hq) as (sb1 & H1 & Hg1).
    rewrite (read_n_app _ _ _ _ _ _ _ H1).
    destruct (IH sb1 {| ThreadSafeQueue.queue_ := cmds ++ rest;
                        ThreadSafeQueue.closed_ := ThreadSafeQueue.closed_ q |}
                 rest Hg1 eq_refl) as (sb2 & H2 & Hg2).
    rewrite H2. cbn [ThreadSafeQueue.closed_]. exists sb2. split; [reflexivity|assumption].
Qed.

Lemma get_area_ok_underflow sb q :
  get_area_ok sb ->
  match underflow sb q with
  | Ok (_, sb', _) => get_area_ok sb'
  | Blocks => True
  | Fault => False
  end.
Proof.
  intros Hok. unfold underflow, return_current.
  destruct (gptr_ sb <? egptr_ sb)%nat eqn:Hg.
  - apply Nat.ltb_lt in Hg. unfold deref, get_area_ok in *.
    destruct (area_ sb) eqn:Ha; [lia|].
    destruct (data (current_ sb) !! gptr_ sb) as [c|] eqn:Hd; [|exfalso].
    + unfold get_area_ok. rewrite Ha. exact Hok.
    + apply lookup_ge_None in Hd. unfold data in Hd.
      rewrite length_app in Hd. cbn in Hd. lia.
  - destruct (ThreadSafeQueue.pop q) as [[| |cmd] q']; [exact I|exact Hok|].
    unfold deref, data. cbn [area_ current_ gptr_ setg_current].
    destruct (ensure_newline cmd) as [|c cur]; cbn; reflexivity.
Qed.

Lemma get_area_ok_sbumpc sb q :
  get_area_ok sb ->
  match sbumpc sb q with
  | Ok (_, sb', _) => get_area_ok sb'
  | Blocks => True
  | Fault => False
  end.
Proof.
  intros Hok. unfold sbumpc.
  pose proof (get_area_ok_underflow sb q Hok) as Hu.
  destruct (underflow sb q) as [[[c sb'] q']| |]; try exact Hu.
  destruct (traits_type.eq_int_type c traits_type.eof); exact Hu.
Qed.

Lemma get_area_ok_read_n n : forall sb q,
  get_area_ok sb ->
  match read_n n sb q with
  | Ok (_, sb', _) => get_area_ok sb'
  | Blocks => True
  | Fault => False
  end.
Proof.
  induction n as [|n IH]; intros sb q Hok; cbn [read_n]; [exact Hok|].
  pose proof (get_area_ok_sbumpc sb q Hok) as Hs.
  destruct (sbumpc sb q) as [[[c sb1] q1]| |]; try exact Hs.
  pose proof (IH sb1 q1 Hs) as Hr.
  destruct (read_n n sb1 q1) as [[[cs sb2] q2]| |]; exact Hr.
Qed.

End CommandMoreFacts.

Section PendingFacts.

Import CommandStreambuf.

Implicit Types (sb : CommandStreambuf.t) (q : ThreadSafeQueue.t cstring).

Lemma gbump_0 sb : gbump 0 sb = sb.
Proof. destruct sb. unfold gbump. cbn. now rewrite Nat.add_0_r. Qed.

Lemma gbump1_gbump k sb : gbump k (gbump1 sb) = gbump (S k) sb.
Proof. unfold gbump, gbump1. cbn. f_equal. lia. Qed.

Lemma sbumpc_within sb q c :
  area_ sb = CurrentData ->
  egptr_ sb = length (current_ sb) ->
  current_ sb !! gptr_ sb = Some c ->
  sbumpc sb q = Ok (traits_type.to_int_type c, gbump1 sb, q).
Proof.
  intros Ha He Hc. unfold sbumpc, underflow.
  assert (Hlt : (gptr_ sb < length (current_ sb))%nat)
    by (eapply lookup_lt_Some; eauto).
  rewrite He. rewrite (proj2 (Nat.ltb_lt _ _) Hlt).
  unfold return_current, deref, data. rewrite Ha.
  rewrite lookup_app_l by assumption. rewrite Hc.
  now rewrite to_int_type_not_eof.
Qed.

Lemma read_n_within q k : forall sb,
  area_ sb = CurrentData ->
  egptr_ sb = length (current_ sb) ->
  (gptr_ sb + k = length (current_ sb))%nat ->
  read_n k sb q
  = Ok (map traits_type.to_int_type (drop (gptr_ sb) (current_ sb)), gbump k sb, q).
Proof.
  induction k as [|k IH]; intros sb Ha He Hk; cbn [read_n].
  - rewrite gbump_0. rewrite drop_ge by lia. reflexivity.
  - destruct (current_ sb !! gptr_ sb) as [c|] eqn:Hc.
    2:{ apply lookup_ge_None in Hc. lia. }
    rewrite (sbumpc_within sb q c Ha He Hc).
    rewrite (IH (gbump1 sb)); cbn [gbump1 area_ egptr_ current_ gptr_];
      [|assumption|assumption|lia].
    rewrite gbump1_gbump. now rewrite (drop_S _ c _ Hc).
Qed.

Lemma pending_within sb :
  area_ sb = CurrentData ->
  egptr_ sb = length (current_ sb) ->
  (gptr_ sb <= egptr_ sb)%nat ->
  pending sb = drop (gptr_ sb) (current_ sb).
Proof.
  intros Ha He Hle. unfold pending, data. rewrite Ha.
  rewrite drop_app_le by lia.
  apply take_app_length'. rewrite length_drop. lia.
Qed.

End PendingFacts.

(** X4 (no undefined read).  Starting from a get area as the constructor
    and [underflow] set it up, no sequence of reads ever reads outside the
    placeholder or the current command: [underflow] and every run of
    [sbumpc()] calls end with a character or [eof], or wait in [pop], and
    leave such a get area behind.  The adapter just constructed has one. *)
Theorem reads_never_fault (n : nat) (sb : CommandStreambuf.t)
    (q : ThreadSafeQueue.t cstring) :
  CommandStreambuf.get_area_ok sb ->
  CommandStreambuf.underflow sb q <> CommandStreambuf.Fault
  /\ CommandStreambuf.read_n n sb q <> CommandStreambuf.Fault
  /\ (forall cs sb' q',
        CommandStreambuf.read_n n sb q = CommandStreambuf.Ok (cs, sb', q') ->
        CommandStreambuf.get_area_ok sb')
  /\ CommandStreambuf.get_area_ok CommandStreambuf.create.
Proof.
  intros Hok.
  pose proof (get_area_ok_underflow sb q Hok) as Hu.
  pose proof (get_area_ok_read_n n sb q Hok) as Hr.
  split; [|split; [|split]].
  - intros E. now rewrite E in Hu.
  - intros E. now rewrite E in Hr.
  - intros cs sb' q' E. now rewrite E in Hr.
  - reflexivity.
Qed.

Lemma reads_never_fault_witness :
  let q := {| ThreadSafeQueue.queue_ := [[]; str "go"; [LF]];
              ThreadSafeQueue.closed_ := true |} in
  CommandStreambuf.underflow CommandStreambuf.create q <> CommandStreambuf.Fault
  /\ CommandStreambuf.read_n 9 CommandStreambuf.create q <> CommandStreambuf.Fault
  /\ (forall cs sb' q',
        CommandStreambuf.read_n 9 CommandStreambuf.create q
        = CommandStreambuf.Ok (cs, sb', q') ->
        CommandStreambuf.get_area_ok sb')
  /\ CommandStreambuf.get_area_ok CommandStreambuf.create.
Proof.
  exact (reads_never_fault 9 CommandStreambuf.create
           {| ThreadSafeQueue.queue_ := [[]; str "go"; [LF]];
              ThreadSafeQueue.closed_ := true |} eq_refl).
Defined.

Section ReaderFacts.

Import CommandStreambuf.

Implicit Types (sb : CommandStreambuf.t) (q : ThreadSafeQueue.t cstring)
  (cmd cur : cstring) (cmds rest : list cstring) (ops : list read_call).

Lemma ensure_newline_nonempty cmd : cmd <> [] -> ensure_newline cmd <> [].
Proof.
  intros Hne E. pose proof (ensure_newline_last cmd Hne) as Hl.
  rewrite E in Hl. discriminate.
Qed.

Lemma seen_by_reader_nonempty cmds :
  Forall (fun cmd => cmd <> []) cmds ->
  map seen_by_reader cmds = map ensure_newline cmds.
Proof.
  induction 1 as [|cmd cmds Hne _ IH]; [reflexivity|].
  cbn [map]. rewrite IH. destruct cmd; [congruence|reflexivity].
Qed.

Lemma pending_used_up sb :
  get_area_ok sb -> (gptr_ sb <= egptr_ sb)%nat ->
  (gptr_ sb <? egptr_ sb)%nat = false ->
  pending sb = [].
Proof.
  unfold get_area_ok. intros Hok Hle Hg. apply Nat.ltb_ge in Hg.
  destruct (area_ sb) eqn:Ha.
  - unfold pending. now rewrite Ha.
  - rewrite (pending_within sb Ha Hok Hle). apply drop_ge. lia.
Qed.

Lemma pending_gbump1 sb :
  area_ sb = CurrentData ->
  egptr_ sb = length (current_ sb) ->
  (gptr_ sb < egptr_ sb)%nat ->
  exists x, current_ sb !! gptr_ sb = Some x
            /\ pending sb = x :: pending (gbump1 sb).
Proof.
  intros Ha He Hlt.
  destruct (current_ sb !! gptr_ sb) as [x|] eqn:Hx.
  2:{ apply lookup_ge_None in Hx. lia. }
  exists x. split; [reflexivity|].
  rewrite (pending_within sb Ha He) by lia.
  rewrite (pending_within (gbump1 sb)); cbn [gbump1 area_ egptr_ current_ gptr_];
    [|assumption|assumption|lia].
  now apply drop_S.
Qed.

(** A peek: the next character of the stream, which stays in the stream. *)
Lemma sgetc_stream sb q :
  reader_ok sb q ->
  match stream sb q with
  | c :: s =>
      exists sb' q',
        sgetc sb q = Ok (traits_type.to_int_type c, sb', q')
        /\ stream sb' q' = c :: s
        /\ reader_ok sb' q'
        /\ ThreadSafeQueue.closed_ q' = ThreadSafeQueue.closed_ q
        /\ area_ sb' = CurrentData
        /\ (gptr_ sb' < egptr_ sb')%nat
  | [] =>
      sgetc sb q
      = if ThreadSafeQueue.closed_ q then Ok (traits_type.eof, sb, q) else Blocks
  end.
Proof.
  intros (Hok & Hle & Hne). unfold sgetc.
  destruct (gptr_ sb <? egptr_ sb)%nat eqn:Hg.
  - apply Nat.ltb_lt in Hg.
    assert (Ha : area_ sb = CurrentData).
    { unfold get_area_ok in Hok. destruct (area_ sb); [lia|reflexivity]. }
    assert (He : egptr_ sb = length (current_ sb)).
    { unfold get_area_ok in Hok. now rewrite Ha in Hok. }
    destruct (pending_gbump1 sb Ha He Hg) as (x & Hx & Hp).
    unfold stream. rewrite Hp. cbn [app].
    exists sb, q. split; [|split; [|split; [|split; [|split]]]]; try assumption; try reflexivity.
    + unfold underflow. rewrite (proj2 (Nat.ltb_lt _ _) Hg).
      unfold return_current, deref, data. rewrite Ha.
      rewrite lookup_app_l by lia. now rewrite Hx.
    + unfold stream. now rewrite Hp.
    + now repeat split.
  - unfold stream. rewrite (pending_used_up sb Hok Hle Hg). cbn [app].
    destruct (ThreadSafeQueue.queue_ q) as [|cmd rest] eqn:Hq.
    + cbn [map concat]. unfold underflow. rewrite Hg.
      rewrite (pop_empty q Hq). now destruct (ThreadSafeQueue.closed_ q).
    + apply Forall_cons in Hne. destruct Hne as [Hcmd Hrest].
      cbn [map concat].
      destruct (ensure_newline cmd) as [|c tl] eqn:Hcur.
      { now destruct (ensure_newline_nonempty cmd Hcmd). }
      cbn [app].
      exists (setg_current (c :: tl)),
             {| ThreadSafeQueue.queue_ := rest;
                ThreadSafeQueue.closed_ := ThreadSafeQueue.closed_ q |}.
      split; [|split; [|split; [|split; [|split]]]].
      * rewrite (underflow_pops sb q cmd rest Hg Hq). rewrite Hcur.
        apply return_current_first.
      * unfold stream. now rewrite pending_setg_current.
      * repeat split; [cbn; lia|exact Hrest].
      * reflexivity.
      * reflexivity.
      * cbn. lia.
Qed.

(** A read: the next character of the stream, which leaves the stream. *)
Lemma sbumpc_stream sb q :
  reader_ok sb q ->
  match stream sb q with
  | c :: s =>
      exists sb' q',
        sbumpc sb q = Ok (traits_type.to_int_type c, sb', q')
        /\ stream sb' q' = s
        /\ reader_ok sb' q'
        /\ ThreadSafeQueue.closed_ q' = ThreadSafeQueue.closed_ q
  | [] =>
      sbumpc sb q
      = if ThreadSafeQueue.closed_ q then Ok (traits_type.eof, sb, q) else Blocks
  end.
Proof.
  intros Hrd. pose proof (sgetc_stream sb q Hrd) as Hs.
  unfold sgetc in Hs. unfold sbumpc.
  destruct (stream sb q) as [|c s].
  - rewrite Hs. now destruct (ThreadSafeQueue.closed_ q).
  - destruct Hs as (sb' & q' & Hu & Hst & (Hok & Hle & Hne) & Hc & Ha & Hlt).
    rewrite Hu, to_int_type_not_eof.
    assert (He : egptr_ sb' = length (current_ sb')).
    { unfold get_area_ok in Hok. now rewrite Ha in Hok. }
    destruct (pending_gbump1 sb' Ha He Hlt) as (x & _ & Hp).
    exists (gbump1 sb'), q'. split; [reflexivity|]. split; [|split; [|exact Hc]].
    + unfold stream in Hst |- *. rewrite Hp in Hst. cbn [app] in Hst.
      now injection Hst.
    + repeat split.
      * unfold get_area_ok in *. cbn [gbump1 area_ egptr_ current_]. exact Hok.
      * cbn [gbump1 gptr_ egptr_]. lia.
      * exact Hne.
Qed.

(** Any reader gets from the adapter what it gets from the plain sequence
    of characters. *)
Lemma reads_refine ops : forall sb q,
  reader_ok sb q ->
  match reads_of_stream (ThreadSafeQueue.closed_ q) ops (stream sb q) with
  | Some (rs, s') =>
      exists sb' q',
        reads ops sb q = Ok (rs, sb', q')
        /\ stream sb' q' = s'
        /\ reader_ok sb' q'
        /\ ThreadSafeQueue.closed_ q' = ThreadSafeQueue.closed_ q
  | None => reads ops sb q = Blocks
  end.
Proof.
  induction ops as [|op ops IH]; intros sb q Hrd.
  - cbn. exists sb, q. repeat split; apply Hrd.
  - cbn [reads_of_stream reads].
    pose proof (sgetc_stream sb q Hrd) as Hg.
    pose proof (sbumpc_stream sb q Hrd) as Hb.
    destruct (stream sb q) as [|c s] eqn:Hs.
    + assert (Hop : (match op with Sgetc => sgetc sb q | Sbumpc => sbumpc sb q end)
                    = if ThreadSafeQueue.closed_ q
                      then Ok (traits_type.eof, sb, q) else Blocks)
        by (now destruct op).
      rewrite Hop. clear Hop Hg Hb.
      destruct (ThreadSafeQueue.closed_ q) eqn:Hc; [|reflexivity].
      specialize (IH sb q Hrd). rewrite Hs, Hc in IH.
      destruct (reads_of_stream true ops []) as [[cs rest]|].
      * destruct IH as (sb' & q' & Hr & H1 & H2 & H3).
        exists sb', q'. rewrite Hr.
        split; [reflexivity|]. split; [exact H1|]. split; [exact H2|exact H3].
      * now rewrite IH.
    + assert (Hop : exists sb1 q1,
                (match op with Sgetc => sgetc sb q | Sbumpc => sbumpc sb q end)
                = Ok (traits_type.to_int_type c, sb1, q1)
                /\ stream sb1 q1 = (match op with Sgetc => c :: s | Sbumpc => s end)
                /\ reader_ok sb1 q1
                /\ ThreadSafeQueue.closed_ q1 = ThreadSafeQueue.closed_ q).
      { destruct op.
        - destruct Hg as (sb1 & q1 & H1 & H2 & H3 & H4 & _). now exists sb1, q1.
        - destruct Hb as (sb1 & q1 & H1 & H2 & H3 & H4). now exists sb1, q1. }
      clear Hg Hb. destruct Hop as (sb1 & q1 & Hop & Hs1 & Hrd1 & Hc1).
      rewrite Hop. specialize (IH sb1 q1 Hrd1). rewrite Hs1, Hc1 in IH.
      destruct (reads_of_stream (ThreadSafeQueue.closed_ q) ops _) as [[cs rest]|].
      * destruct IH as (sb' & q' & Hr & H1 & H2 & H3).
        exists sb', q'. rewrite Hr.
        split; [reflexivity|]. split; [exact H1|]. split; [exact H2|].
        now rewrite H3.
      * now rewrite IH.
Qed.

Lemma reader_ok_create q :
  Forall (fun cmd => cmd <> []) (ThreadSafeQueue.queue_ q) ->
  reader_ok create q.
Proof. intros Hne. repeat split; [cbn; lia|exact Hne]. Qed.

End ReaderFacts.

(** X5 (any reader sees the commands in queue order).  When no queued
    command is empty and the read position is inside a get area as the
    member functions keep it, every sequence of [sgetc()] and [sbumpc()]
    calls, so every reader built from them, [snextc()] and [std::getline]
    included, returns what it would return on the plain sequence of
    characters made of the rest of the current command followed by each
    queued command with its newline, in queue order; it waits exactly where
    that sequence is used up and the queue is open, gets [eof] there when
    the queue is closed, and what is left to read afterwards is what is
    left of the sequence. *)
Theorem reader_sees_commands_in_order (ops : list CommandStreambuf.read_call)
    (sb : CommandStreambuf.t) (q : ThreadSafeQueue.t cstring) :
  CommandStreambuf.reader_ok sb q ->
  match CommandStreambuf.reads_of_stream (ThreadSafeQueue.closed_ q) ops
          (CommandStreambuf.stream sb q) with
  | Some (rs, s') =>
      exists sb' q',
        CommandStreambuf.reads ops sb q = CommandStreambuf.Ok (rs, sb', q')
        /\ CommandStreambuf.stream sb' q' = s'
        /\ CommandStreambuf.reader_ok sb' q'
        /\ ThreadSafeQueue.closed_ q' = ThreadSafeQueue.closed_ q
  | None => CommandStreambuf.reads ops sb q = CommandStreambuf.Blocks
  end.
Proof. apply reads_refine. Qed.

Lemma reader_sees_commands_in_order_witness :
  let q := {| ThreadSafeQueue.queue_ := [str "uci"; str "go" ++ [LF]];
              ThreadSafeQueue.closed_ := false |} in
  let ops := [CommandStreambuf.Sgetc; CommandStreambuf.Sbumpc;
              CommandStreambuf.Sgetc; CommandStreambuf.Sbumpc;
              CommandStreambuf.Sbumpc; CommandStreambuf.Sbumpc;
              CommandStreambuf.Sgetc; CommandStreambuf.Sgetc;
              CommandStreambuf.Sbumpc] in
  exists sb' q',
    CommandStreambuf.reads ops CommandStreambuf.create q
    = CommandStreambuf.Ok ([117; 117; 99; 99; 105; 10; 103; 103; 103], sb', q')
    /\ CommandStreambuf.stream sb' q' = str "o" ++ [LF]
    /\ CommandStreambuf.reader_ok sb' q'
    /\ ThreadSafeQueue.closed_ q' = false.
Proof.
  intros q ops.
  refine (reader_sees_commands_in_order ops CommandStreambuf.create q _).
  repeat split; [cbn; lia|].
  repeat constructor; discriminate.
Defined.

(** The same calls behind an empty command: the peek returns the null, and
    the read that follows takes the first character of the next command,
    which a reader that peeks and moves on never sees. *)
Example peek_and_advance_after_empty_command :
  CommandStreambuf.reads
    [CommandStreambuf.Sgetc; CommandStreambuf.Sbumpc; CommandStreambuf.Sgetc;
     CommandStreambuf.Sbumpc; CommandStreambuf.Sgetc]
    CommandStreambuf.create
    {| ThreadSafeQueue.queue_ := [[]; str "uci"];
       ThreadSafeQueue.closed_ := false |}
  = CommandStreambuf.Ok
      ([0; 117; 99; 99; 105],
       {| CommandStreambuf.current_ := str "uci" ++ [LF];
          CommandStreambuf.area_ := CommandStreambuf.CurrentData;
          CommandStreambuf.eback_ := 0; CommandStreambuf.gptr_ := 2;
          CommandStreambuf.egptr_ := 4 |},
       {| ThreadSafeQueue.queue_ := []; ThreadSafeQueue.closed_ := false |}).
Proof. reflexivity. Qed.

(** X6 (from [push] to the reader).  Commands, none of them empty, pushed
    on a fresh queue that is then closed: a reader of a fresh adapter that
    takes one character after the other receives every command complete
    and in push order, each ending with one newline where it had none, and
    then [eof] at every further read, with the queue closed and empty; and
    every reader made of [sgetc()] and [sbumpc()] calls returns what it
    returns on that sequence of characters followed by end of file. *)
Theorem pushed_commands_then_eof (cmds : list cstring) (k : nat)
    (ops : list CommandStreambuf.read_call) :
  Forall (fun cmd => cmd <> []) cmds ->
  let q := ThreadSafeQueue.close (ThreadSafeQueue.push_all cmds ThreadSafeQueue.create) in
  let text := concat (map CommandStreambuf.ensure_newline cmds) in
  (exists sb',
     CommandStreambuf.read_n (length text + k) CommandStreambuf.create q
     = CommandStreambuf.Ok
         (map traits_type.to_int_type text ++ repeat traits_type.eof k,
          sb', ThreadSafeQueue.close ThreadSafeQueue.create))
  /\ (exists rs s' sb' q',
        CommandStreambuf.reads_of_stream true ops text = Some (rs, s')
        /\ CommandStreambuf.reads ops CommandStreambuf.create q
           = CommandStreambuf.Ok (rs, sb', q')
        /\ CommandStreambuf.stream sb' q' = s').
Proof.
  intros Hne q text. subst q text.
  rewrite (push_all_open cmds ThreadSafeQueue.create eq_refl).
  cbn [ThreadSafeQueue.close ThreadSafeQueue.queue_ ThreadSafeQueue.create
       ThreadSafeQueue.closed_ app].
  split.
  - destruct (read_commands cmds CommandStreambuf.create
                {| ThreadSafeQueue.queue_ := cmds; ThreadSafeQueue.closed_ := true |}
                [] eq_refl (eq_sym (app_nil_r cmds))) as (sb' & Hr & Hg).
    cbn [ThreadSafeQueue.closed_] in Hr.
    rewrite (seen_by_reader_nonempty cmds Hne) in Hr.
    exists sb'. rewrite (read_n_app _ _ _ _ _ _ _ Hr).
    now rewrite (read_n_eof k sb'
                   {| ThreadSafeQueue.queue_ := []; ThreadSafeQueue.closed_ := true |}
                   Hg eq_refl eq_refl).
  - pose proof (reads_refine ops CommandStreambuf.create
                  {| ThreadSafeQueue.queue_ := cmds; ThreadSafeQueue.closed_ := true |}
                  (reader_ok_create
                     {| ThreadSafeQueue.queue_ := cmds;
                        ThreadSafeQueue.closed_ := true |} Hne)) as Hr.
    cbn [ThreadSafeQueue.closed_] in Hr.
    change (CommandStreambuf.stream CommandStreambuf.create
              {| ThreadSafeQueue.queue_ := cmds; ThreadSafeQueue.closed_ := true |})
      with (concat (map CommandStreambuf.ensure_newline cmds)) in Hr.
    destruct (CommandStreambuf.reads_of_stream true ops _) as [[rs s']|] eqn:Hspec.
    + destruct Hr as (sb' & q' & H1 & H2 & _).
      exists rs, s', sb', q'. now repeat split.
    + exfalso. revert Hspec. clear.
      generalize (concat (map CommandStreambuf.ensure_newline cmds)).
      induction ops as [|op ops IH]; intros s; cbn [CommandStreambuf.reads_of_stream];
        [discriminate|].
      destruct s as [|c s].
      * specialize (IH []).
        destruct (CommandStreambuf.reads_of_stream true ops []) as [[cs rest]|];
          [discriminate|now destruct IH].
      * set (s1 := match op with
                   | CommandStreambuf.Sgetc => c :: s
                   | CommandStreambuf.Sbumpc => s
                   end).
        specialize (IH s1).
        destruct (CommandStreambuf.reads_of_stream true ops s1) as [[cs rest]|];
          [discriminate|now destruct IH].
Qed.

Lemma pushed_commands_then_eof_witness :
  let cmds := [str "uci"; str "quit" ++ [LF]] in
  let q := ThreadSafeQueue.close (ThreadSafeQueue.push_all cmds ThreadSafeQueue.create) in
  (exists sb',
     CommandStreambuf.read_n (9 + 2) CommandStreambuf.create q
     = CommandStreambuf.Ok
         ([117; 99; 105; 10; 113; 117; 105; 116; 10]
          ++ [traits_type.eof; traits_type.eof],
          sb', ThreadSafeQueue.close ThreadSafeQueue.create))
  /\ (exists rs s' sb' q',
        CommandStreambuf.reads_of_stream true
          [CommandStreambuf.Sgetc; CommandStreambuf.Sbumpc; CommandStreambuf.Sgetc]
          (str "uci" ++ [LF] ++ str "quit" ++ [LF]) = Some (rs, s')
        /\ CommandStreambuf.reads
             [CommandStreambuf.Sgetc; CommandStreambuf.Sbumpc; CommandStreambuf.Sgetc]
             CommandStreambuf.create q
           = CommandStreambuf.Ok (rs, sb', q')
        /\ CommandStreambuf.stream sb' q' = s').
Proof.
  intros cmds q.
  refine (pushed_commands_then_eof cmds 2
            [CommandStreambuf.Sgetc; CommandStreambuf.Sbumpc; CommandStreambuf.Sgetc] _).
  repeat constructor; discriminate.
Defined.

(** X7 (when the reader waits).  [underflow] waits exactly when the get
    area is used up and the queue is open and empty.  So the reader of a
    fresh adapter over an open fresh queue on which commands, none of them
    empty, were pushed receives every one of them complete and in push
    order, which empties the queue, and then waits at the next read; one
    more command pushed at that point is what the reader receives next. *)
Theorem reader_waits_when_drained (sb : CommandStreambuf.t)
    (q : ThreadSafeQueue.t cstring) (cmds : list cstring) (cmd : cstring) :
  Forall (fun cmd => cmd <> []) cmds ->
  cmd <> [] ->
  let text := concat (map CommandStreambuf.ensure_newline cmds) in
  let open_empty :=
    {| ThreadSafeQueue.queue_ := []; ThreadSafeQueue.closed_ := false |} in
  (CommandStreambuf.underflow sb q = CommandStreambuf.Blocks
   <-> (CommandStreambuf.gptr_ sb <? CommandStreambuf.egptr_ sb)%nat = false
       /\ ThreadSafeQueue.closed_ q = false /\ ThreadSafeQueue.queue_ q = [])
  /\ exists sb',
       CommandStreambuf.read_n (length text) CommandStreambuf.create
         (ThreadSafeQueue.push_all cmds ThreadSafeQueue.create)
       = CommandStreambuf.Ok (map traits_type.to_int_type text, sb', open_empty)
       /\ CommandStreambuf.read_n 1 sb' open_empty = CommandStreambuf.Blocks
       /\ CommandStreambuf.read_n (length text + 1) CommandStreambuf.create
            (ThreadSafeQueue.push_all cmds ThreadSafeQueue.create)
          = CommandStreambuf.Blocks
       /\ exists sb'',
            CommandStreambuf.read_n (length (CommandStreambuf.ensure_newline cmd))
              sb' (ThreadSafeQueue.push cmd open_empty)
            = CommandStreambuf.Ok
                (map traits_type.to_int_type (CommandStreambuf.ensure_newline cmd),
                 sb'', open_empty).
Proof.
  intros Hne Hcmd text open_empty. subst text open_empty.
  split; [apply underflow_blocks_iff|].
  rewrite (push_all_open cmds ThreadSafeQueue.create eq_refl).
  cbn [ThreadSafeQueue.queue_ ThreadSafeQueue.create app].
  destruct (read_commands cmds CommandStreambuf.create
              {| ThreadSafeQueue.queue_ := cmds; ThreadSafeQueue.closed_ := false |}
              [] eq_refl (eq_sym (app_nil_r cmds))) as (sb' & Hr & Hg).
  cbn [ThreadSafeQueue.closed_] in Hr.
  rewrite (seen_by_reader_nonempty cmds Hne) in Hr.
  pose proof (read_n_blocks sb'
                {| ThreadSafeQueue.queue_ := []; ThreadSafeQueue.closed_ := false |}
                Hg eq_refl eq_refl) as Hb.
  exists sb'. split; [exact Hr|]. split; [exact Hb|]. split.
  - rewrite (read_n_app _ _ _ _ _ _ _ Hr). now rewrite Hb.
  - eexists.
    apply (read_n_command sb'
             (ThreadSafeQueue.push cmd
                {| ThreadSafeQueue.queue_ := []; ThreadSafeQueue.closed_ := false |})
             cmd [] Hg eq_refl Hcmd).
Qed.

Lemma reader_waits_when_drained_witness :
  let open_empty :=
    {| ThreadSafeQueue.queue_ := []; ThreadSafeQueue.closed_ := false |} in
  exists sb',
    CommandStreambuf.read_n 4 CommandStreambuf.create
      (ThreadSafeQueue.push_all [str "uci"] ThreadSafeQueue.create)
    = CommandStreambuf.Ok ([117; 99; 105; 10], sb', open_empty)
    /\ CommandStreambuf.read_n 1 sb' open_empty = CommandStreambuf.Blocks
    /\ CommandStreambuf.read_n (4 + 1) CommandStreambuf.create
         (ThreadSafeQueue.push_all [str "uci"] ThreadSafeQueue.create)
       = CommandStreambuf.Blocks
    /\ exists sb'',
         CommandStreambuf.read_n 3 sb'
           (ThreadSafeQueue.push (str "go") open_empty)
         = CommandStreambuf.Ok ([103; 111; 10], sb'', open_empty).
Proof.
  intros open_empty.
  refine (proj2 (reader_waits_when_drained CommandStreambuf.create open_empty
                   [str "uci"] (str "go") _ _)).
  - repeat constructor; discriminate.
  - discriminate.
Defined.

(** X8 (the current command is read without the queue).  From a get area
    as the member functions keep it, reading as many characters as are
    pending returns exactly the pending characters, leaves the queue alone
    whatever it holds, and moves the read position by that many
    characters, after which nothing is pending. *)
Theorem pending_read_leaves_queue (sb : CommandStreambuf.t)
    (q : ThreadSafeQueue.t cstring) :
  CommandStreambuf.get_area_ok sb ->
  CommandStreambuf.read_n (length (CommandStreambuf.pending sb)) sb q
  = CommandStreambuf.Ok
      (map traits_type.to_int_type (CommandStreambuf.pending sb),
       CommandStreambuf.gbump (length (CommandStreambuf.pending sb)) sb, q)
  /\ CommandStreambuf.pending
       (CommandStreambuf.gbump (length (CommandStreambuf.pending sb)) sb) = [].
Proof.
  unfold CommandStreambuf.get_area_ok. intros Hok.
  destruct (CommandStreambuf.area_ sb) eqn:Ha.
  - assert (Hp : CommandStreambuf.pending sb = [])
      by (unfold CommandStreambuf.pending; now rewrite Ha).
    rewrite Hp. cbn [length map CommandStreambuf.read_n].
    rewrite gbump_0. now split.
  - destruct (le_lt_dec (CommandStreambuf.gptr_ sb) (CommandStreambuf.egptr_ sb))
      as [Hle|Hgt].
    + rewrite (pending_within sb Ha Hok Hle). split.
      * apply read_n_within; [assumption|assumption|].
        rewrite length_drop. lia.
      * unfold CommandStreambuf.pending, CommandStreambuf.gbump.
        cbn [CommandStreambuf.area_ CommandStreambuf.gptr_
             CommandStreambuf.egptr_ CommandStreambuf.current_].
        rewrite Ha. rewrite length_drop.
        replace (CommandStreambuf.egptr_ sb
                 - (CommandStreambuf.gptr_ sb
                    + (length (CommandStreambuf.current_ sb)
                       - CommandStreambuf.gptr_ sb)))%nat with 0%nat by lia.
        reflexivity.
    + assert (Hp : CommandStreambuf.pending sb = []).
      { unfold CommandStreambuf.pending. rewrite Ha.
        replace (CommandStreambuf.egptr_ sb - CommandStreambuf.gptr_ sb)%nat
          with 0%nat by lia. reflexivity. }
      rewrite Hp. cbn [length map CommandStreambuf.read_n].
      rewrite gbump_0. now split.
Qed.

Lemma pending_read_leaves_queue_witness :
  let sb := CommandStreambuf.gbump1
              (CommandStreambuf.setg_current (str "isready" ++ [LF])) in
  let q := {| ThreadSafeQueue.queue_ := [str "go"];
              ThreadSafeQueue.closed_ := false |} in
  CommandStreambuf.read_n 7 sb q
  = CommandStreambuf.Ok
      ([115; 114; 101; 97; 100; 121; 10], CommandStreambuf.gbump 7 sb, q)
  /\ CommandStreambuf.pending (CommandStreambuf.gbump 7 sb) = [].
Proof.
  exact (pending_read_leaves_queue
           (CommandStreambuf.gbump1
              (CommandStreambuf.setg_current (str "isready" ++ [LF])))
           {| ThreadSafeQueue.queue_ := [str "go"];
              ThreadSafeQueue.closed_ := false |} eq_refl).
Defined.

(** ** The output adapter: whole texts *)

Section LineMoreFacts.

Import LineBufferStreambuf.

Context {Host : Type}.

Implicit Types (sb : LineBufferStreambuf.t Host) (h : Host) (buf : cstring)
  (cb : LineCallback Host) (ocb : option (LineCallback Host)).

Lemma not_eof_not_eof (ch : int_type) :
  traits_type.not_eof ch <> traits_type.eof.
Proof.
  unfold traits_type.not_eof, traits_type.eq_int_type.
  destruct (ch =? traits_type.eof) eqn:He.
  - discriminate.
  - now apply Z.eqb_neq.
Qed.

Lemma flush_line_cases ocb buf h :
  flush_line {| callback_ := ocb; buffer_ := buf |} h
  = ({| callback_ := ocb; buffer_ := buf |}, h)
  \/ exists cb, ocb = Some cb /\ buf <> []
       /\ flush_line {| callback_ := ocb; buffer_ := buf |} h
          = ({| callback_ := ocb; buffer_ := [] |}, cb buf h).
Proof.
  destruct ocb as [cb|]; [|now left].
  destruct buf as [|c buf]; [now left|].
  right. exists cb. repeat split. discriminate.
Qed.

(** What one call does, by what it appends. *)
Lemma step_cases (c : call) ocb buf h :
  (appended c = []
   /\ step c {| callback_ := ocb; buffer_ := buf |} h
      = ({| callback_ := ocb; buffer_ := buf |}, h))
  \/ (appended c = []
      /\ step c {| callback_ := ocb; buffer_ := buf |} h
         = flush_line {| callback_ := ocb; buffer_ := buf |} h)
  \/ (exists x, appended c = [x] /\ x <> CR /\ x <> LF
        /\ step c {| callback_ := ocb; buffer_ := buf |} h
           = ({| callback_ := ocb; buffer_ := buf ++ [x] |}, h)).
Proof.
  destruct c as [ch|]; cbn [step appended].
  - unfold overflow.
    destruct (traits_type.eq_int_type ch traits_type.eof); [now left|].
    destruct (char_eqb (traits_type.to_char_type ch) CR) eqn:Hcr; [now left|].
    destruct (char_eqb (traits_type.to_char_type ch) LF) eqn:Hlf; cbn [orb].
    + right. left. split; [reflexivity|]. now destruct (flush_line _ h).
    + right. right. exists (traits_type.to_char_type ch).
      repeat split.
      * intros E. rewrite E in Hcr. discriminate.
      * intros E. rewrite E in Hlf. discriminate.
  - right. left. split; [reflexivity|]. unfold sync. now destruct (flush_line _ h).
Qed.

Lemma feed_app (a b : cstring) : forall sb h,
  feed (a ++ b) sb h = feed b (feed a sb h).1 (feed a sb h).2.
Proof.
  induction a as [|c a IH]; intros sb h; cbn [app feed]; [reflexivity|].
  destruct (sputc c sb h) as [sb1 h1]. apply IH.
Qed.

Lemma feed_as_run (text : cstring) : forall sb h,
  feed text sb h = run (writes text) sb h.
Proof.
  induction text as [|c text IH]; intros sb h; cbn [feed writes map run];
    [reflexivity|].
  unfold sputc. cbn [step].
  destruct (overflow sb (traits_type.to_int_type c) h) as [[r sb1] h1]. apply IH.
Qed.

Lemma appended_writes (text : cstring) :
  concat (map appended (writes text)) = kept text.
Proof.
  unfold writes, kept. induction text as [|c text IH]; [reflexivity|].
  cbn [map concat appended].
  rewrite to_int_type_not_eof, to_char_of_to_int. rewrite IH.
  destruct (decide (c = CR)) as [->|Hcr].
  { rewrite char_eqb_refl. cbn [orb app].
    rewrite filter_cons_False; [reflexivity|]. intros [H _]. now apply H. }
  rewrite (char_eqb_neq _ _ Hcr).
  destruct (decide (c = LF)) as [->|Hlf].
  { rewrite char_eqb_refl. cbn [orb app].
    rewrite filter_cons_False; [reflexivity|]. intros [_ H]. now apply H. }
  rewrite (char_eqb_neq _ _ Hlf). cbn [orb app].
  now rewrite filter_cons_True.
Qed.

Lemma appended_clean (cs : list call) : clean (concat (map appended cs)).
Proof.
  unfold clean. induction cs as [|c cs IH]; cbn [map concat]; [constructor|].
  apply Forall_app. split; [|exact IH].
  destruct c as [ch|]; cbn [appended]; [|constructor].
  destruct (traits_type.eq_int_type ch traits_type.eof); [constructor|].
  destruct (char_eqb (traits_type.to_char_type ch) CR) eqn:Hcr; [constructor|].
  destruct (char_eqb (traits_type.to_char_type ch) LF) eqn:Hlf; [constructor|].
  cbn [orb]. repeat constructor.
  - intros E. rewrite E in Hcr. discriminate.
  - intros E. rewrite E in Hlf. discriminate.
Qed.

Lemma feed_without_cr (text : cstring) : forall ocb buf h,
  feed text {| callback_ := ocb; buffer_ := buf |} h
  = feed (without_cr text) {| callback_ := ocb; buffer_ := buf |} h.
Proof.
  unfold without_cr.
  induction text as [|c text IH]; intros ocb buf h; [reflexivity|].
  destruct (decide (c = CR)) as [->|Hcr].
  - rewrite filter_cons_False by (intros H; now apply H).
    cbn [feed]. rewrite sputc_cases, char_eqb_refl. apply IH.
  - rewrite filter_cons_True by assumption. cbn [feed].
    destruct (sputc c {| callback_ := ocb; buffer_ := buf |} h) as [[ocb1 buf1] h1] eqn:Hs.
    assert (ocb1 = ocb) as ->.
    { rewrite sputc_cases, (char_eqb_neq _ _ Hcr) in Hs.
      destruct (char_eqb c LF).
      - destruct (flush_line_cases ocb buf h) as [E|(cb & _ & _ & E)];
          rewrite E in Hs; now injection Hs.
      - now injection Hs. }
    apply IH.
Qed.

(** One line and its line ending, written to an adapter with nothing pending. *)
Lemma feed_line cb (line eol : cstring) h :
  clean line ->
  eol = [LF] \/ eol = [CR; LF] ->
  feed (line ++ eol) {| callback_ := Some cb; buffer_ := [] |} h
  = ({| callback_ := Some cb; buffer_ := [] |},
     deliver_all cb (filter (fun l => l <> []) [line]) h).
Proof.
  intros Hcl Heol. rewrite feed_app.
  rewrite (feed_no_newline line (Some cb) [] h) by (now apply clean_no_newline).
  rewrite (without_cr_clean line Hcl). cbn [app fst snd].
  assert (Hlf : feed [LF] {| callback_ := Some cb; buffer_ := line |} h
                = ({| callback_ := Some cb; buffer_ := [] |},
                   deliver_all cb (filter (fun l => l <> []) [line]) h)).
  { cbn [feed]. rewrite sputc_cases. change (char_eqb LF CR) with false.
    rewrite char_eqb_refl. destruct line as [|c line]; [reflexivity|].
    rewrite flush_line_some by discriminate. reflexivity. }
  destruct Heol as [->| ->]; [exact Hlf|].
  change [CR; LF] with ([CR] ++ [LF]). rewrite feed_app.
  cbn [feed]. rewrite sputc_cases, char_eqb_refl. exact Hlf.
Qed.

Lemma deliver_all_app cb (a b : list cstring) h :
  deliver_all cb (a ++ b) h = deliver_all cb b (deliver_all cb a h).
Proof. unfold deliver_all. apply fold_left_app. Qed.

Lemma feed_lines cb (eol : cstring) (lines : list cstring) : forall h,
  Forall clean lines ->
  eol = [LF] \/ eol = [CR; LF] ->
  feed (terminated eol lines) {| callback_ := Some cb; buffer_ := [] |} h
  = ({| callback_ := Some cb; buffer_ := [] |},
     deliver_all cb (filter (fun l => l <> []) lines) h).
Proof.
  unfold terminated.
  induction lines as [|line lines IH]; intros h Hcl Heol; [reflexivity|].
  apply Forall_cons in Hcl. destruct Hcl as [Hl Hls].
  cbn [map concat]. rewrite feed_app.
  rewrite (feed_line cb line eol h Hl Heol). cbn [fst snd].
  rewrite IH by assumption.
  change (line :: lines) with ([line] ++ lines).
  now rewrite filter_app, deliver_all_app.
Qed.

End LineMoreFacts.

Lemma run_recorded (cs : list LineBufferStreambuf.call) : forall buf seen,
  exists new buf',
    LineBufferStreambuf.run cs
      {| LineBufferStreambuf.callback_ := Some LineBufferStreambuf.record_line;
         LineBufferStreambuf.buffer_ := buf |} seen
    = ({| LineBufferStreambuf.callback_ := Some LineBufferStreambuf.record_line;
          LineBufferStreambuf.buffer_ := buf' |}, seen ++ new)
    /\ concat new ++ buf' = buf ++ concat (map LineBufferStreambuf.appended cs)
    /\ Forall (fun line => line <> []) new.
Proof.
  induction cs as [|c cs IH]; intros buf seen.
  - exists [], buf. cbn. rewrite !app_nil_r. repeat split. constructor.
  - cbn [LineBufferStreambuf.run map concat].
    destruct (step_cases c (Some LineBufferStreambuf.record_line) buf seen)
      as [[Ea Es]|[[Ea Es]|(x & Ea & _ & _ & Es)]]; rewrite Es, Ea; clear Es Ea.
    + cbn [app]. apply IH.
    + destruct (flush_line_cases (Some LineBufferStreambuf.record_line) buf seen)
        as [E|(cb & Hcb & Hne & E)]; rewrite E; clear E.
      * cbn [app]. apply IH.
      * injection Hcb as <-. unfold LineBufferStreambuf.record_line at 2.
        destruct (IH [] (seen ++ [buf])) as (new & buf' & H1 & H2 & H3).
        exists (buf :: new), buf'. rewrite H1. split; [|split].
        -- f_equal. now rewrite <- app_assoc.
        -- cbn [concat app] in *. rewrite <- app_assoc. now rewrite H2.
        -- now constructor.
    + destruct (IH (buf ++ [x]) seen) as (new & buf' & H1 & H2 & H3).
      exists new, buf'. rewrite H1. split; [reflexivity|]. split; [|assumption].
      rewrite H2. now rewrite <- app_assoc.
Qed.

(** X9 ([overflow] never fails).  Whatever the state and the argument,
    [overflow] returns a value other than [eof()], so the stream writing
    through the adapter never sees a failed write, and it keeps the
    callback; called with [eof()] it changes neither the buffer nor the
    host and returns [0]. *)
Theorem overflow_never_fails {Host : Type} (sb : LineBufferStreambuf.t Host)
    (ch : int_type) (h : Host) :
  (LineBufferStreambuf.overflow sb ch h).1.1 <> traits_type.eof
  /\ LineBufferStreambuf.callback_ (LineBufferStreambuf.overflow sb ch h).1.2
     = LineBufferStreambuf.callback_ sb
  /\ LineBufferStreambuf.overflow sb traits_type.eof h = (0, sb, h).
Proof.
  split; [|split; [|reflexivity]].
  - unfold LineBufferStreambuf.overflow.
    destruct (traits_type.eq_int_type ch traits_type.eof); [apply not_eof_not_eof|].
    destruct (char_eqb _ CR); [apply not_eof_not_eof|].
    destruct (char_eqb _ LF); [|apply not_eof_not_eof].
    destruct (LineBufferStreambuf.flush_line sb h). apply not_eof_not_eof.
  - unfold LineBufferStreambuf.overflow.
    destruct (traits_type.eq_int_type ch traits_type.eof); [reflexivity|].
    destruct (char_eqb _ CR); [reflexivity|].
    destruct (char_eqb _ LF); [|reflexivity].
    destruct sb as [ocb buf].
    destruct (flush_line_cases ocb buf h) as [E|(cb & _ & _ & E)]; now rewrite E.
Qed.

(** X10 (carriage returns are transparent).  In every state, writing a text
    has the same effect on the buffer and on the host as writing the text
    with its carriage returns taken out: a CR LF text and the LF text
    deliver the same lines. *)
Theorem carriage_returns_transparent {Host : Type} (text : cstring)
    (sb : LineBufferStreambuf.t Host) (h : Host) :
  LineBufferStreambuf.feed text sb h
  = LineBufferStreambuf.feed (LineBufferStreambuf.without_cr text) sb h.
Proof. destruct sb as [ocb buf]. apply feed_without_cr. Qed.

(** X11 (lines in, lines out).  Lines free of carriage returns and
    newlines, each written with a newline or with carriage return and
    newline behind it, to an adapter with a callback and nothing pending:
    the callback is called once for each line that is not empty, in the
    order written, with exactly that line, and nothing stays pending. *)
Theorem lines_round_trip {Host : Type} (cb : LineBufferStreambuf.LineCallback Host)
    (lines : list cstring) (h : Host) :
  Forall LineBufferStreambuf.clean lines ->
  LineBufferStreambuf.feed (LineBufferStreambuf.terminated [LF] lines)
    (LineBufferStreambuf.create (Some cb)) h
  = (LineBufferStreambuf.create (Some cb),
     LineBufferStreambuf.deliver_all cb (filter (fun l => l <> []) lines) h)
  /\ LineBufferStreambuf.feed (LineBufferStreambuf.terminated [CR; LF] lines)
       (LineBufferStreambuf.create (Some cb)) h
     = (LineBufferStreambuf.create (Some cb),
        LineBufferStreambuf.deliver_all cb (filter (fun l => l <> []) lines) h).
Proof.
  intros Hcl. unfold LineBufferStreambuf.create. split.
  - apply feed_lines; [assumption|now left].
  - apply feed_lines; [assumption|now right].
Qed.

Lemma lines_round_trip_witness :
  let lines := [str "id name Stockfish"; []; str "uciok"] in
  LineBufferStreambuf.feed (LineBufferStreambuf.terminated [LF] lines)
    (LineBufferStreambuf.create (Some LineBufferStreambuf.record_line)) []
  = (LineBufferStreambuf.create (Some LineBufferStreambuf.record_line),
     [str "id name Stockfish"; str "uciok"])
  /\ LineBufferStreambuf.feed (LineBufferStreambuf.terminated [CR; LF] lines)
       (LineBufferStreambuf.create (Some LineBufferStreambuf.record_line)) []
     = (LineBufferStreambuf.create (Some LineBufferStreambuf.record_line),
        [str "id name Stockfish"; str "uciok"]).
Proof.
  refine (lines_round_trip LineBufferStreambuf.record_line
            [str "id name Stockfish"; []; str "uciok"] [] _).
  repeat constructor; unfold LineBufferStreambuf.clean;
    apply (bool_decide_unpack _); vm_compute; exact I.
Defined.

(** X12 (no character lost, none made up).  With a recording callback, after
    any sequence of [overflow] and [sync] calls: the record is the old
    record followed by the new lines, none of them empty; the new lines put
    end to end, followed by what is pending, are what was pending at the
    start followed by the characters written that are neither [eof()] nor
    carriage return nor newline, in the order written; and these characters
    of a written text are the text without its carriage returns and
    newlines. *)
Theorem characters_conserved (cs : list LineBufferStreambuf.call)
    (buf : cstring) (seen : list cstring) (text : cstring) :
  (exists new buf',
     LineBufferStreambuf.run cs
       {| LineBufferStreambuf.callback_ := Some LineBufferStreambuf.record_line;
          LineBufferStreambuf.buffer_ := buf |} seen
     = ({| LineBufferStreambuf.callback_ := Some LineBufferStreambuf.record_line;
           LineBufferStreambuf.buffer_ := buf' |}, seen ++ new)
     /\ concat new ++ buf' = buf ++ concat (map LineBufferStreambuf.appended cs)
     /\ Forall (fun line => line <> []) new)
  /\ LineBufferStreambuf.clean (concat (map LineBufferStreambuf.appended cs))
  /\ concat (map LineBufferStreambuf.appended (LineBufferStreambuf.writes text))
     = LineBufferStreambuf.kept text
  /\ LineBufferStreambuf.feed text
       {| LineBufferStreambuf.callback_ := Some LineBufferStreambuf.record_line;
          LineBufferStreambuf.buffer_ := buf |} seen
     = LineBufferStreambuf.run (LineBufferStreambuf.writes text)
         {| LineBufferStreambuf.callback_ := Some LineBufferStreambuf.record_line;
            LineBufferStreambuf.buffer_ := buf |} seen.
Proof.
  split; [apply run_recorded|].
  split; [apply appended_clean|].
  split; [apply appended_writes|apply feed_as_run].
Qed.

(** Two lines and a partial one, with a flush in between. *)
Example characters_conserved_example :
  LineBufferStreambuf.run
    (LineBufferStreambuf.writes (str "ab" ++ [CR; LF] ++ str "c")
     ++ [LineBufferStreambuf.Sync]
     ++ LineBufferStreambuf.writes (str "d" ++ [LF; LF] ++ str "e"))
    (LineBufferStreambuf.create (Some LineBufferStreambuf.record_line)) []
  = ({| LineBufferStreambuf.callback_ := Some LineBufferStreambuf.record_line;
        LineBufferStreambuf.buffer_ := str "e" |},
     [str "ab"; str "c"; str "d"]).
Proof. reflexivity. Qed.

(** ** The entry point: where the banner goes *)

Section RunMoreFacts.

Import EmbeddedUCI.

Context {Host : Type}.

Implicit Types (w : World Host) (p : streambuf_ptr).

Lemma cout_write_frame (s : cstring) w :
  cin (cout_write s w) = cin w
  /\ cout (cout_write s w) = cout w
  /\ forall p, p <> rdbuf (cout w) -> heap (cout_write s w) !! p = heap w !! p.
Proof.
  unfold cout_write.
  destruct (heap w !! rdbuf (cout w)) as [[sb0 q0|sb|received]|];
    try (repeat split; fail).
  - destruct (LineBufferStreambuf.feed s sb (host w)) as [sb' h'].
    cbn [with_line_buf cin cout heap]. repeat split.
    intros p Hp. now rewrite lookup_insert_ne.
  - cbn [with_other_buf cin cout heap]. repeat split.
    intros p Hp. now rewrite lookup_insert_ne.
Qed.

Lemma cout_endl_frame w :
  cin (cout_endl w) = cin w
  /\ cout (cout_endl w) = cout w
  /\ forall p, p <> rdbuf (cout w) -> heap (cout_endl w) !! p = heap w !! p.
Proof.
  unfold cout_endl.
  destruct (heap w !! rdbuf (cout w)) as [[sb0 q0|sb|received]|];
    try (repeat split; fail).
  - destruct (LineBufferStreambuf.sputc LF sb (host w)) as [sb1 h1].
    destruct (LineBufferStreambuf.sync sb1 h1) as [[r sb2] h2].
    cbn [with_line_buf cin cout heap]. repeat split.
    intros p Hp. now rewrite lookup_insert_ne.
  - cbn [with_other_buf cin cout heap]. repeat split.
    intros p Hp. now rewrite lookup_insert_ne.
Qed.

(** The banner written to a buffer of another class. *)
Lemma banner_other_buf (engine_info : cstring) (in_ out : ios) w
    (received : cstring) :
  heap w !! rdbuf out = Some (OtherBuf received) ->
  at_engine_start engine_info in_ out w
  = {| cin := {| rdbuf_ := rdbuf in_ |}; cout := {| rdbuf_ := rdbuf out |};
       heap := <[rdbuf out := OtherBuf (received ++ engine_info ++ [LF])]> (heap w);
       host := host w |}.
Proof.
  intros Hh. unfold at_engine_start. rewrite ctor_world.
  unfold cout_write. cbn [cout heap host rdbuf rdbuf_]. rewrite Hh.
  unfold cout_endl, with_other_buf. cbn [cout heap host rdbuf rdbuf_].
  rewrite lookup_insert_eq. rewrite insert_insert_eq.
  now rewrite <- app_assoc.
Qed.

Lemma banner_null_callback (engine_info : cstring) (in_ out : ios) w (buf : cstring) :
  heap w !! rdbuf out
  = Some (LineBuf {| LineBufferStreambuf.callback_ := None;
                     LineBufferStreambuf.buffer_ := buf |}) ->
  at_engine_start engine_info in_ out w
  = {| cin := {| rdbuf_ := rdbuf in_ |}; cout := {| rdbuf_ := rdbuf out |};
       heap := <[rdbuf out :=
                   LineBuf {| LineBufferStreambuf.callback_ := None;
                              LineBufferStreambuf.buffer_ :=
                                buf ++ LineBufferStreambuf.kept engine_info |}]>
                 (heap w);
       host := host w |}.
Proof.
  intros Hh. unfold at_engine_start. rewrite ctor_world.
  unfold cout_write. cbn [cout heap host rdbuf rdbuf_]. rewrite Hh.
  rewrite feed_as_run, run_null, appended_writes.
  unfold cout_endl, with_line_buf. cbn [cout heap host rdbuf rdbuf_].
  rewrite lookup_insert_eq.
  rewrite sputc_cases. change (char_eqb LF CR) with false.
  rewrite char_eqb_refl, flush_line_null.
  unfold LineBufferStreambuf.sync. rewrite flush_line_null.
  now rewrite insert_insert_eq.
Qed.

End RunMoreFacts.

Lemma endl_recorded (buf : cstring) (seen : list cstring) :
  (let '(sb1, h1) :=
     LineBufferStreambuf.sputc LF
       {| LineBufferStreambuf.callback_ := Some LineBufferStreambuf.record_line;
          LineBufferStreambuf.buffer_ := buf |} seen in
   LineBufferStreambuf.sync sb1 h1)
  = (0, {| LineBufferStreambuf.callback_ := Some LineBufferStreambuf.record_line;
           LineBufferStreambuf.buffer_ := [] |},
     seen ++ filter (fun l => l <> []) [buf]).
Proof.
  destruct buf as [|c buf].
  - cbn. now rewrite app_nil_r.
  - reflexivity.
Qed.

Lemma banner_recorded (engine_info : cstring) (in_ out : EmbeddedUCI.ios)
    (w : EmbeddedUCI.World (list cstring)) (buf : cstring) :
  EmbeddedUCI.heap w !! EmbeddedUCI.rdbuf out
  = Some (EmbeddedUCI.LineBuf
            {| LineBufferStreambuf.callback_ := Some LineBufferStreambuf.record_line;
               LineBufferStreambuf.buffer_ := buf |}) ->
  exists new,
    EmbeddedUCI.at_engine_start engine_info in_ out w
    = {| EmbeddedUCI.cin := {| EmbeddedUCI.rdbuf_ := EmbeddedUCI.rdbuf in_ |};
         EmbeddedUCI.cout := {| EmbeddedUCI.rdbuf_ := EmbeddedUCI.rdbuf out |};
         EmbeddedUCI.heap :=
           <[EmbeddedUCI.rdbuf out :=
               EmbeddedUCI.LineBuf
                 (LineBufferStreambuf.create (Some LineBufferStreambuf.record_line))]>
             (EmbeddedUCI.heap w);
         EmbeddedUCI.host := EmbeddedUCI.host w ++ new |}
    /\ concat new = buf ++ LineBufferStreambuf.kept engine_info
    /\ Forall (fun line => line <> []) new.
Proof.
  intros Hh. unfold EmbeddedUCI.at_engine_start. rewrite ctor_world.
  unfold EmbeddedUCI.cout_write.
  cbn [EmbeddedUCI.cout EmbeddedUCI.heap EmbeddedUCI.host EmbeddedUCI.rdbuf
       EmbeddedUCI.rdbuf_].
  rewrite Hh. rewrite feed_as_run.
  destruct (run_recorded (LineBufferStreambuf.writes engine_info) buf
              (EmbeddedUCI.host w)) as (new & buf' & Hr & Hc & Hne).
  rewrite Hr. rewrite appended_writes in Hc.
  unfold EmbeddedUCI.cout_endl, EmbeddedUCI.with_line_buf.
  cbn [EmbeddedUCI.cout EmbeddedUCI.heap EmbeddedUCI.host EmbeddedUCI.rdbuf
       EmbeddedUCI.rdbuf_].
  rewrite lookup_insert_eq.
  pose proof (endl_recorded buf' (EmbeddedUCI.host w ++ new)) as He.
  destruct (LineBufferStreambuf.sputc LF _ _) as [sb1 h1].
  rewrite He. clear He.
  exists (new ++ filter (fun l => l <> []) [buf']).
  split; [|split].
  - rewrite insert_insert_eq. now rewrite app_assoc.
  - rewrite concat_app, <- Hc. f_equal.
    destruct buf' as [|c buf'].
    + now rewrite filter_cons_False by (intros H; now apply H).
    + rewrite filter_cons_True by discriminate. cbn [filter concat].
      rewrite filter_nil. cbn [concat]. apply app_nil_r.
  - apply Forall_app. split; [assumption|].
    destruct buf' as [|c buf'].
    + rewrite filter_cons_False by (intros H; now apply H). constructor.
    + rewrite filter_cons_True by discriminate. repeat constructor. discriminate.
Qed.

(** X13 (the banner goes to [out] only).  When the engine part starts, the
    streams are bound to the buffers of [in] and [out], and every stream
    buffer other than the one [out] is bound to, the one [std::cout] was
    bound to before included, is as it was at the call; when [out] is bound
    to a buffer of another class than the line buffer, that buffer has
    received the identification string and a newline behind what it had
    received before, and the host is untouched.  At the end of the function
    the buffers and the host are as the engine part left them: the
    destructor only rebinds the streams. *)
Theorem banner_touches_only_out {Host : Type} (engine_info : cstring)
    (engine_run : EmbeddedUCI.World Host -> EmbeddedUCI.World Host * EmbeddedUCI.completion)
    (in_ out : EmbeddedUCI.ios) (w : EmbeddedUCI.World Host)
    (p : EmbeddedUCI.streambuf_ptr) :
  p <> EmbeddedUCI.rdbuf out ->
  EmbeddedUCI.heap (EmbeddedUCI.at_engine_start engine_info in_ out w) !! p
  = EmbeddedUCI.heap w !! p
  /\ EmbeddedUCI.rdbuf (EmbeddedUCI.cin (EmbeddedUCI.at_engine_start engine_info in_ out w))
     = EmbeddedUCI.rdbuf in_
  /\ EmbeddedUCI.rdbuf (EmbeddedUCI.cout (EmbeddedUCI.at_engine_start engine_info in_ out w))
     = EmbeddedUCI.rdbuf out
  /\ (forall received,
        EmbeddedUCI.heap w !! EmbeddedUCI.rdbuf out
        = Some (EmbeddedUCI.OtherBuf received) ->
        EmbeddedUCI.heap (EmbeddedUCI.at_engine_start engine_info in_ out w)
        = <[EmbeddedUCI.rdbuf out :=
              EmbeddedUCI.OtherBuf (received ++ engine_info ++ [LF])]>
            (EmbeddedUCI.heap w)
        /\ EmbeddedUCI.host (EmbeddedUCI.at_engine_start engine_info in_ out w)
           = EmbeddedUCI.host w)
  /\ EmbeddedUCI.heap (EmbeddedUCI.RunStockfishUCI engine_info engine_run in_ out w).1
     = EmbeddedUCI.heap
         (engine_run (EmbeddedUCI.at_engine_start engine_info in_ out w)).1
  /\ EmbeddedUCI.host (EmbeddedUCI.RunStockfishUCI engine_info engine_run in_ out w).1
     = EmbeddedUCI.host
         (engine_run (EmbeddedUCI.at_engine_start engine_info in_ out w)).1.
Proof.
  intros Hp.
  assert (Hrun : EmbeddedUCI.heap (EmbeddedUCI.RunStockfishUCI engine_info engine_run in_ out w).1
                 = EmbeddedUCI.heap
                     (engine_run (EmbeddedUCI.at_engine_start engine_info in_ out w)).1
                 /\ EmbeddedUCI.host (EmbeddedUCI.RunStockfishUCI engine_info engine_run in_ out w).1
                    = EmbeddedUCI.host
                        (engine_run (EmbeddedUCI.at_engine_start engine_info in_ out w)).1).
  { rewrite RunStockfishUCI_unfold.
    destruct (engine_run _) as [w3 [| |]]; split; reflexivity. }
  assert (Hother : forall received,
             EmbeddedUCI.heap w !! EmbeddedUCI.rdbuf out
             = Some (EmbeddedUCI.OtherBuf received) ->
             EmbeddedUCI.heap (EmbeddedUCI.at_engine_start engine_info in_ out w)
             = <[EmbeddedUCI.rdbuf out :=
                   EmbeddedUCI.OtherBuf (received ++ engine_info ++ [LF])]>
                 (EmbeddedUCI.heap w)
             /\ EmbeddedUCI.host (EmbeddedUCI.at_engine_start engine_info in_ out w)
                = EmbeddedUCI.host w).
  { intros received Hh.
    rewrite (banner_other_buf engine_info in_ out w received Hh). now split. }
  unfold EmbeddedUCI.at_engine_start.
  unfold EmbeddedUCI.at_engine_start in Hother.
  set (w1 := (EmbeddedUCI.StreamRedirector_ctor in_ out w).2) in *.
  assert (Hw1 : w1 = {| EmbeddedUCI.cin := {| EmbeddedUCI.rdbuf_ := EmbeddedUCI.rdbuf in_ |};
                        EmbeddedUCI.cout := {| EmbeddedUCI.rdbuf_ := EmbeddedUCI.rdbuf out |};
                        EmbeddedUCI.heap := EmbeddedUCI.heap w;
                        EmbeddedUCI.host := EmbeddedUCI.host w |})
    by apply ctor_world.
  destruct (cout_write_frame engine_info w1) as (Hi1 & Ho1 & Hf1).
  destruct (cout_endl_frame (EmbeddedUCI.cout_write engine_info w1)) as (Hi2 & Ho2 & Hf2).
  rewrite Ho1 in Hf2.
  assert (Hco : EmbeddedUCI.rdbuf (EmbeddedUCI.cout w1) = EmbeddedUCI.rdbuf out)
    by (now rewrite Hw1).
  rewrite Hco in Hf1, Hf2.
  split; [|split; [|split; [|split]]].
  - rewrite (Hf2 p Hp), (Hf1 p Hp). now rewrite Hw1.
  - rewrite Hi2, Hi1. now rewrite Hw1.
  - rewrite Ho2, Ho1. exact Hco.
  - exact Hother.
  - exact Hrun.
Qed.

Lemma banner_touches_only_out_witness :
  let w := {| EmbeddedUCI.cin := {| EmbeddedUCI.rdbuf_ := 1%N |};
              EmbeddedUCI.cout := {| EmbeddedUCI.rdbuf_ := 2%N |};
              EmbeddedUCI.heap :=
                {[ 2%N := EmbeddedUCI.OtherBuf (str "old");
                   4%N := EmbeddedUCI.OtherBuf [] ]};
              EmbeddedUCI.host := tt |} in
  let w2 := EmbeddedUCI.at_engine_start (str "Stockfish")
              {| EmbeddedUCI.rdbuf_ := 3%N |} {| EmbeddedUCI.rdbuf_ := 4%N |} w in
  EmbeddedUCI.heap w2 !! 2%N = Some (EmbeddedUCI.OtherBuf (str "old"))
  /\ EmbeddedUCI.heap w2 !! 4%N
     = Some (EmbeddedUCI.OtherBuf (str "Stockfish" ++ [LF])).
Proof.
  intros w w2.
  pose proof (banner_touches_only_out (str "Stockfish")
                (fun w0 => (w0, EmbeddedUCI.Returns))
                {| EmbeddedUCI.rdbuf_ := 3%N |} {| EmbeddedUCI.rdbuf_ := 4%N |}
                w 2%N ltac:(discriminate)) as (H2 & _ & _ & H4 & _).
  split.
  - exact H2.
  - destruct (H4 [] eq_refl) as [Hheap _]. fold w2 in Hheap.
    rewrite Hheap. apply lookup_insert_eq.
Defined.

(** X14 (the banner without a callback).  When [out] is bound to a line
    buffer whose callback is the empty function object, the engine part
    starts with the host untouched and with the identification string,
    less its carriage returns and newlines, added to what was pending:
    neither the newline nor the flush of [std::endl] delivers it. *)
Theorem banner_kept_without_callback {Host : Type} (engine_info : cstring)
    (in_ out : EmbeddedUCI.ios) (w : EmbeddedUCI.World Host) (buf : cstring) :
  EmbeddedUCI.heap w !! EmbeddedUCI.rdbuf out
  = Some (EmbeddedUCI.LineBuf {| LineBufferStreambuf.callback_ := None;
                                 LineBufferStreambuf.buffer_ := buf |}) ->
  EmbeddedUCI.at_engine_start engine_info in_ out w
  = {| EmbeddedUCI.cin := {| EmbeddedUCI.rdbuf_ := EmbeddedUCI.rdbuf in_ |};
       EmbeddedUCI.cout := {| EmbeddedUCI.rdbuf_ := EmbeddedUCI.rdbuf out |};
       EmbeddedUCI.heap :=
         <[EmbeddedUCI.rdbuf out :=
             EmbeddedUCI.LineBuf
               {| LineBufferStreambuf.callback_ := None;
                  LineBufferStreambuf.buffer_ :=
                    buf ++ LineBufferStreambuf.kept engine_info |}]>
           (EmbeddedUCI.heap w);
       EmbeddedUCI.host := EmbeddedUCI.host w |}.
Proof. apply banner_null_callback. Qed.

Lemma banner_kept_without_callback_witness :
  let w := {| EmbeddedUCI.cin := {| EmbeddedUCI.rdbuf_ := 1%N |};
              EmbeddedUCI.cout := {| EmbeddedUCI.rdbuf_ := 2%N |};
              EmbeddedUCI.heap :=
                {[ 4%N := EmbeddedUCI.LineBuf (LineBufferStreambuf.create None) ]};
              EmbeddedUCI.host := tt |} in
  EmbeddedUCI.at_engine_start (str "Stockfish 17")
    {| EmbeddedUCI.rdbuf_ := 3%N |} {| EmbeddedUCI.rdbuf_ := 4%N |} w
  = {| EmbeddedUCI.cin := {| EmbeddedUCI.rdbuf_ := 3%N |};
       EmbeddedUCI.cout := {| EmbeddedUCI.rdbuf_ := 4%N |};
       EmbeddedUCI.heap :=
         <[4%N := EmbeddedUCI.LineBuf
                    {| LineBufferStreambuf.callback_ := None;
                       LineBufferStreambuf.buffer_ :=
                         [] ++ LineBufferStreambuf.kept (str "Stockfish 17") |}]>
           (EmbeddedUCI.heap w);
       EmbeddedUCI.host := tt |}.
Proof.
  intros w.
  exact (banner_kept_without_callback (str "Stockfish 17")
           {| EmbeddedUCI.rdbuf_ := 3%N |} {| EmbeddedUCI.rdbuf_ := 4%N |}
           w [] eq_refl).
Defined.

(** X15 (the whole banner is delivered).  When [out] is bound to a line
    buffer with a recording callback, whatever is pending in it and
    whatever the identification string is, several lines or none: when the
    engine part starts nothing is pending, the new lines of the record are
    not empty, and put end to end they are what was pending followed by the
    identification string less its carriage returns and newlines. *)
Theorem banner_all_delivered (engine_info : cstring) (in_ out : EmbeddedUCI.ios)
    (w : EmbeddedUCI.World (list cstring)) (buf : cstring) :
  EmbeddedUCI.heap w !! EmbeddedUCI.rdbuf out
  = Some (EmbeddedUCI.LineBuf
            {| LineBufferStreambuf.callback_ := Some LineBufferStreambuf.record_line;
               LineBufferStreambuf.buffer_ := buf |}) ->
  exists new,
    EmbeddedUCI.at_engine_start engine_info in_ out w
    = {| EmbeddedUCI.cin := {| EmbeddedUCI.rdbuf_ := EmbeddedUCI.rdbuf in_ |};
         EmbeddedUCI.cout := {| EmbeddedUCI.rdbuf_ := EmbeddedUCI.rdbuf out |};
         EmbeddedUCI.heap :=
           <[EmbeddedUCI.rdbuf out :=
               EmbeddedUCI.LineBuf
                 (LineBufferStreambuf.create (Some LineBufferStreambuf.record_line))]>
             (EmbeddedUCI.heap w);
         EmbeddedUCI.host := EmbeddedUCI.host w ++ new |}
    /\ concat new = buf ++ LineBufferStreambuf.kept engine_info
    /\ Forall (fun line => line <> []) new.
Proof. apply banner_recorded. Qed.

Lemma banner_all_delivered_witness :
  let w := {| EmbeddedUCI.cin := {| EmbeddedUCI.rdbuf_ := 1%N |};
              EmbeddedUCI.cout := {| EmbeddedUCI.rdbuf_ := 2%N |};
              EmbeddedUCI.heap :=
                {[ 4%N := EmbeddedUCI.LineBuf
                            {| LineBufferStreambuf.callback_ :=
                                 Some LineBufferStreambuf.record_line;
                               LineBufferStreambuf.buffer_ := str "pre" |} ]};
              EmbeddedUCI.host := [] |} in
  EmbeddedUCI.host
    (EmbeddedUCI.at_engine_start (str "Stockfish" ++ [LF] ++ str "id author x")
       {| EmbeddedUCI.rdbuf_ := 3%N |} {| EmbeddedUCI.rdbuf_ := 4%N |} w)
  = [str "preStockfish"; str "id author x"]
  /\ exists new,
       EmbeddedUCI.at_engine_start (str "Stockfish" ++ [LF] ++ str "id author x")
         {| EmbeddedUCI.rdbuf_ := 3%N |} {| EmbeddedUCI.rdbuf_ := 4%N |} w
       = {| EmbeddedUCI.cin := {| EmbeddedUCI.rdbuf_ := 3%N |};
            EmbeddedUCI.cout := {| EmbeddedUCI.rdbuf_ := 4%N |};
            EmbeddedUCI.heap :=
              <[4%N := EmbeddedUCI.LineBuf
                         (LineBufferStreambuf.create
                            (Some LineBufferStreambuf.record_line))]>
                (EmbeddedUCI.heap w);
            EmbeddedUCI.host := [] ++ new |}
       /\ concat new
          = str "pre"
            ++ LineBufferStreambuf.kept (str "Stockfish" ++ [LF] ++ str "id author x")
       /\ Forall (fun line => line <> []) new.
Proof.
  intros w. split; [vm_compute; reflexivity|].
  exact (banner_all_delivered (str "Stockfish" ++ [LF] ++ str "id author x")
           {| EmbeddedUCI.rdbuf_ := 3%N |} {| EmbeddedUCI.rdbuf_ := 4%N |}
           w (str "pre") eq_refl).
Defined.
